(** * Neural Monkey: language utilities and the generic trainer

    A shallow embedding of [language_utils.py] and
    [neuralmonkey/trainers/generic_trainer.py], followed by the
    properties of the two modules.

    Conventions of the embedding:
    - a Python [str] is a [string]; one [ascii] stands for one character;
    - a Python [float] is an exact rational ([Q]): the rounding of the
      floating-point operations is not modelled;
    - a call that can raise returns a [py_result];
    - a [dict] whose iteration order is observable is an association list
      in insertion order, any other [dict] is a [gmap];
    - what the code takes from the interpreter or from TensorFlow
      ([str.capitalize], [compute_gradients], ...) is a [Variable] of the
      enclosing section. *)

From Stdlib Require Import QArith Qabs Ascii.
From stdpp Require Import base option list strings gmap.

Set Default Proof Using "Type".

(** ** Python exceptions *)

Module Py.

Inductive py_error : Type :=
| TypeError
| IndexError
| KeyError
| ValueError
| ZeroDivisionError.

Inductive py_result (A : Type) : Type :=
| Ok (a : A)
| Raise (e : py_error).
Arguments Ok {A} a.
Arguments Raise {A} e.

Definition py_bind {A B : Type} (f : A → py_result B) (m : py_result A)
  : py_result B :=
  match m with
  | Ok a => f a
  | Raise e => Raise e
  end.

#[export] Instance py_ret : MRet py_result := @Ok.
#[export] Instance py_mbind : MBind py_result := @py_bind.

Definition raises {A : Type} (m : py_result A) : Prop :=
  ∃ e, m = Raise e.

(** [d[k]] on a dict, [l[i]] and [l[-1]] on a list. *)
Definition dict_getitem {V : Type} (d : gmap string V) (k : string)
  : py_result V :=
  match d !! k with
  | Some v => Ok v
  | None => Raise KeyError
  end.

Definition list_getitem {A : Type} (l : list A) (i : nat) : py_result A :=
  match l !! i with
  | Some x => Ok x
  | None => Raise IndexError
  end.

Definition list_get_last {A : Type} (l : list A) : py_result A :=
  match last l with
  | Some x => Ok x
  | None => Raise IndexError
  end.

(** [l[i] = x]: an index out of range raises. *)
Definition list_setitem {A : Type} (l : list A) (i : nat) (x : A)
  : py_result (list A) :=
  if decide (i < length l) then Ok (<[i:=x]> l) else Raise IndexError.

Definition list_set_last {A : Type} (l : list A) (x : A)
  : py_result (list A) :=
  match l with
  | [] => Raise IndexError
  | _ :: _ => Ok (<[pred (length l):=x]> l)
  end.

(** Truth value of a list. *)
Definition truthy {A : Type} (l : list A) : bool :=
  match l with
  | [] => false
  | _ :: _ => true
  end.

End Py.
Import Py.

(** ** language_utils.py *)

Module LanguageUtils.

(** [list(sequence)] on a string: its characters, each a string of length
    one. *)
Fixpoint preprocess_char_based (sequence : string) : list string :=
  match sequence with
  | EmptyString => []
  | String c rest => String c EmptyString :: preprocess_char_based rest
  end.

(** [sep.join(items)]. *)
Fixpoint str_join (sep : string) (items : list string) : string :=
  match items with
  | [] => ""
  | [x] => x
  | x :: rest => x +:+ sep +:+ str_join sep rest
  end.

Definition postprocess_char_based {A : Type} (sequences : list (list string))
    (_ : A) : list (list string) :=
  (λ sqc, [str_join "" sqc]) <$> sequences.

(** [word[n:]]. *)
Fixpoint str_drop (n : nat) (s : string) : string :=
  match n, s with
  | O, _ => s
  | S n', String _ rest => str_drop n' rest
  | S _, EmptyString => EmptyString
  end.

Definition CONTRACTIONS : list string :=
  ["am"; "ans"; "beim"; "im"; "ins"; "vom"; "zum"; "zur"].

(** Every two-element list of the source is the pair it is unpacked to. *)
Definition UNCONTRACTED_FORMS : list (string * string) :=
  [("an", "dem"); ("an", "das"); ("bei", "dem"); ("in", "dem");
   ("in", "das"); ("von", "dem"); ("zu", "dem"); ("zu", "der")].

(** The loop that fills [CONTRACT]: article, then preposition, to the
    contracted form. *)
Definition contract_add (acc : gmap string (gmap string string))
    (entry : string * (string * string)) : gmap string (gmap string string) :=
  let '(cont, (prep, article)) := entry in
  let acc' := if decide (is_Some (acc !! article)) then acc
              else <[article := ∅]> acc in
  <[article := <[prep := cont]> (default ∅ (acc' !! article))]> acc'.

Definition CONTRACT : gmap string (gmap string string) :=
  foldl contract_add ∅ (zip CONTRACTIONS UNCONTRACTED_FORMS).
#[global] Arguments CONTRACT : simpl never.

Section CaseMapping.
(** [str.capitalize] and [str.lower] of the interpreter. *)
Variables (capitalize lower : string → string).

Definition untruecase (sentence : list string) : list string :=
  match sentence with
  | w :: rest => [capitalize w] ++ rest
  | [] => []
  end.

(** The condition of the first branch of the postprocessor, with the
    short-circuit evaluation of [and]: the contracted form when [word]
    is an article of [CONTRACT] and the last result word one of its
    prepositions. *)
Definition contraction (result : list string) (word : string)
  : option string :=
  preps ← CONTRACT !! word;
  prev ← last result;
  preps !! prev.

Record GermanPostprocessor : Type := {
  compounding : bool;
  contracting : bool;
  pronouns : bool
}.

(** One round of the loop of [__call__] on the state
    [(result, compound)]. *)
Definition postprocess_word (self : GermanPostprocessor)
    (st : list string * bool) (word : string)
  : py_result (list string * bool) :=
  let '(result, compound) := st in
  if contracting self && bool_decide (is_Some (contraction result word))
  then
    prev ← list_get_last result;
    preps ← dict_getitem CONTRACT word;
    cont ← dict_getitem preps prev;
    result' ← list_set_last result cont;
    Ok (result', compound)
  else if pronouns self && String.prefix "<<" word then
    if truthy result then
      prev ← list_get_last result;
      result' ← list_set_last result (prev +:+ str_drop 2 word);
      Ok (result', compound)
    else Ok (result, compound)
  else if compounding self && truthy result
          && bool_decide (word = ">><<") then
    Ok (result, true)
  else if compounding self && compound then
    prev ← list_get_last result;
    result' ← list_set_last result (prev +:+ lower word);
    Ok (result', false)
  else Ok (result ++ [word], compound).

Fixpoint postprocess_loop (self : GermanPostprocessor)
    (st : list string * bool) (sentence : list string)
  : py_result (list string * bool) :=
  match sentence with
  | [] => Ok st
  | word :: rest =>
      st' ← postprocess_word self st word;
      postprocess_loop self st' rest
  end.

Definition capitalize_first (result : list string) : list string :=
  match result with
  | [] => []
  | w :: rest => capitalize w :: rest
  end.

Definition GermanPostprocessor_call (self : GermanPostprocessor)
    (sentence : list string) : py_result (list string) :=
  st ← postprocess_loop self ([], false) sentence;
  Ok (capitalize_first st.1).

End CaseMapping.

(** The case mapping on the letters of ASCII; any other character is left
    as it is. On words of ASCII characters these are [str.capitalize] and
    [str.lower]; they are used for the examples only. *)
Definition ascii_upper (c : ascii) : ascii :=
  let n := nat_of_ascii c in
  if (97 <=? n)%nat && (n <=? 122)%nat then ascii_of_nat (n - 32) else c.

Definition ascii_lower (c : ascii) : ascii :=
  let n := nat_of_ascii c in
  if (65 <=? n)%nat && (n <=? 90)%nat then ascii_of_nat (n + 32) else c.

Fixpoint str_map (f : ascii → ascii) (s : string) : string :=
  match s with
  | EmptyString => EmptyString
  | String c rest => String (f c) (str_map f rest)
  end.

Definition ascii_str_lower : string → string := str_map ascii_lower.

Definition ascii_str_capitalize (s : string) : string :=
  match s with
  | EmptyString => EmptyString
  | String c rest => String (ascii_upper c) (ascii_str_lower rest)
  end.

(** The loop of [__call__] keeps [compound] unset as long as [result] is
    empty. *)
Definition loop_inv (st : list string * bool) : Prop :=
  st.2 = true → st.1 ≠ [].

Definition is_ascii_lower (c : ascii) : bool :=
  (97 <=? nat_of_ascii c)%nat && (nat_of_ascii c <=? 122)%nat.

Definition is_ascii_upper (c : ascii) : bool :=
  (65 <=? nat_of_ascii c)%nat && (nat_of_ascii c <=? 90)%nat.

Fixpoint str_forall (p : ascii → bool) (s : string) : bool :=
  match s with
  | EmptyString => true
  | String c rest => p c && str_forall p rest
  end.

(** A word whose first character is no lower-case letter and that has no
    upper-case letter after it. *)
Definition capitalized (s : string) : bool :=
  match s with
  | EmptyString => true
  | String c rest =>
      negb (is_ascii_lower c)
      && str_forall (λ c, negb (is_ascii_upper c)) rest
  end.

(** *** The preprocessor *)

Definition CONTRACTIONS_SET : gset string := list_to_set CONTRACTIONS.

(** The dict comprehension that fills [UNCONTRACT]: a later entry of the
    same key would replace an earlier one. *)
Definition UNCONTRACT : gmap string (list string) :=
  foldl (λ acc entry, <[entry.1 := [entry.2.1; entry.2.2]]> acc) ∅
        (zip CONTRACTIONS UNCONTRACTED_FORMS).
#[global] Arguments UNCONTRACT : simpl never.

(** The first result that [f] gives on the items of [l], in order: the
    alternatives of a pattern are tried from the left. *)
Fixpoint first_match {A B : Type} (f : A → option B) (l : list A)
  : option B :=
  match l with
  | [] => None
  | x :: rest =>
      match f x with
      | Some y => Some y
      | None => first_match f rest
      end
  end.

Definition newline : string := String (ascii_of_nat 10) EmptyString.

(** [$]: the end of the string, or a newline that ends it. *)
Definition at_end (s : string) : bool :=
  bool_decide (s = EmptyString) || bool_decide (s = newline).

(** [pattern.match(word)] for a pattern [^(stem|...)(ending|...)$]: groups
    1 and 2 of the match, [None] when there is none. *)
Definition match_ending (endings : list string) (rest : string)
  : option string :=
  first_match
    (λ ending,
       if String.prefix ending rest
          && at_end (str_drop (String.length ending) rest)
       then Some ending else None)
    endings.

Definition match_stem_ending (stems endings : list string) (word : string)
  : option (string * string) :=
  first_match
    (λ stem,
       if String.prefix stem word
       then ending ← match_ending endings
                        (str_drop (String.length stem) word);
            Some (stem, ending)
       else None)
    stems.

Definition PRONOUN_ENDINGS : list string := ["e"; "es"; "er"; "em"; "en"].

(** [[mdsk]ein] is written out. *)
Definition EIN_TYPE_STEMS : list string :=
  ["ein"; "mein"; "dein"; "sein"; "kein"; "ihr"; "unser"; "euer"; "Ihr"].

Definition DER_TYPE_STEMS : list string := ["dies"; "welch"; "jed"; "all"].

Definition EIN_TYPE_PRONOUNS_match : string → option (string * string) :=
  match_stem_ending EIN_TYPE_STEMS PRONOUN_ENDINGS.

Definition DER_TYPE_PRONOUNS_match : string → option (string * string) :=
  match_stem_ending DER_TYPE_STEMS PRONOUN_ENDINGS.

(** [s.find(sub)] from index [i] on: the index of the first occurrence,
    [-1] when there is none. *)
Fixpoint str_find_from (sub : string) (i : nat) (s : string) : Z :=
  match s with
  | EmptyString => if String.prefix sub s then Z.of_nat i else (-1)%Z
  | String _ rest =>
      if String.prefix sub s then Z.of_nat i
      else str_find_from sub (S i) rest
  end.

Definition str_find (sub s : string) : Z := str_find_from sub 0 s.

(** [s.split(sep)] for a separator that is not empty. [cur] is the part
    read since the last separator, [skip] counts the characters of a
    separator that are still to pass. *)
Fixpoint split_from (sep : string) (skip : nat) (cur s : string)
  : list string :=
  match s with
  | EmptyString => [cur]
  | String c rest =>
      match skip with
      | S skip' => split_from sep skip' cur rest
      | O =>
          if String.prefix sep s
          then cur :: split_from sep (pred (String.length sep)) "" rest
          else split_from sep 0 (cur +:+ String c EmptyString) rest
      end
  end.

Definition str_split (sep s : string) : list string :=
  split_from sep 0 "" s.

(** The fields of a [GermanPreprocessor]. *)
Record GermanPreprocessor : Type := {
  pre_compounding : bool;
  pre_contracting : bool;
  pre_pronouns : bool
}.

Section Preprocessor.
(** [str.capitalize] of the interpreter. *)
Variable capitalize : string → string.

(** One round of the loop of [__call__]. The two matches are only used
    where [self.pronouns] holds. *)
Definition preprocess_word (self : GermanPreprocessor)
    (result : list string) (word : string) : py_result (list string) :=
  let ein_match := EIN_TYPE_PRONOUNS_match word in
  let der_match := DER_TYPE_PRONOUNS_match word in
  if pre_contracting self && bool_decide (word ∈ CONTRACTIONS_SET) then
    forms ← dict_getitem UNCONTRACT word;
    Ok (result ++ forms)
  else
    match (if pre_pronouns self then ein_match else None),
          (if pre_pronouns self then der_match else None) with
    | Some (stem, ending), _ => Ok (result ++ [stem] ++ ["<<" +:+ ending])
    | None, Some (stem, ending) =>
        Ok (result ++ [stem] ++ ["<<" +:+ ending])
    | None, None =>
        if pre_compounding self && bool_decide (-1 < str_find ">><<" word)%Z
        then
          let compound_parts := str_split ">><<" word in
          first ← list_getitem compound_parts 0;
          Ok (foldl (λ result wrd, result ++ [">><<"] ++ [capitalize wrd])
                    (result ++ [first]) (drop 1 compound_parts))
        else Ok (result ++ [word])
    end.

Fixpoint preprocess_loop (self : GermanPreprocessor) (result : list string)
    (sentence : list string) : py_result (list string) :=
  match sentence with
  | [] => Ok result
  | word :: rest =>
      result' ← preprocess_word self result word;
      preprocess_loop self result' rest
  end.

Definition GermanPreprocessor_call (self : GermanPreprocessor)
    (sentence : list string) : py_result (list string) :=
  preprocess_loop self [] sentence.

End Preprocessor.

End LanguageUtils.

(** ** neuralmonkey/trainers/generic_trainer.py *)

Module GenericTrainer.

(** *** The computation graph *)

(** A [tf.Variable]; the graph gives every variable a name of its own. *)
Record variable : Type := { name : string }.

#[export] Instance variable_eq_dec : EqDecision variable.
Proof. solve_decision. Defined.

(** The values [clip_norm] is given: [None], a [bool], a number. *)
Inductive py_value : Type :=
| PyNone
| PyBool (b : bool)
| PyFloat (q : Q).

(** A node of the graph, named after the call that makes it. [Node] is a
    node made elsewhere (a loss, a gradient). *)
Inductive tensor : Type :=
| Node (id : nat)
| Var (v : variable)
| Const (q : Q)
| Pow (t : tensor) (n : Z)
| ReduceSum (t : tensor)
| Abs (t : tensor)
| Add (a b : tensor)
| Mul (a b : tensor)
| ClipByNorm (t : tensor) (clip_norm : py_value).

(** A Python number or a tensor: what [sum] and [*] return here. *)
Inductive scalar : Type :=
| Num (q : Q)
| Ten (t : tensor).

Definition as_tensor (x : scalar) : tensor :=
  match x with
  | Num q => Const q
  | Ten t => t
  end.

Definition py_add (x y : scalar) : scalar :=
  match x, y with
  | Num a, Num b => Num (a + b)
  | _, _ => Ten (Add (as_tensor x) (as_tensor y))
  end.

Definition py_mul (x y : scalar) : scalar :=
  match x, y with
  | Num a, Num b => Num (a * b)
  | _, _ => Ten (Mul (as_tensor x) (as_tensor y))
  end.

(** The builtin [sum]: starts from the integer 0. *)
Definition py_sum (items : list scalar) : scalar :=
  foldl py_add (Num 0) items.

(** [l != 0.]: a tensor is never equal to a float. *)
Definition ne_zero (x : scalar) : bool :=
  match x with
  | Num q => negb (Qeq_bool q 0)
  | Ten _ => true
  end.

(** The value of a node in a session, as the flat list of its elements (a
    scalar has one); [None] for the nodes made elsewhere. *)
Definition broadcast (f : Q → Q → Q) (xs ys : list Q) : option (list Q) :=
  match xs, ys with
  | [x], _ => Some (f x <$> ys)
  | _, [y] => Some ((λ x, f x y) <$> xs)
  | _, _ => if decide (length xs = length ys) then Some (zip_with f xs ys)
            else None
  end.

Fixpoint eval (σ : variable → list Q) (t : tensor) : option (list Q) :=
  match t with
  | Node _ => None
  | Var v => Some (σ v)
  | Const q => Some [q]
  | Pow t n => (λ xs : list Q, (λ x, Qpower x n) <$> xs) <$> eval σ t
  | ReduceSum t => (λ xs : list Q, [foldl Qplus 0%Q xs]) <$> eval σ t
  | Abs t => (λ xs : list Q, Qabs <$> xs) <$> eval σ t
  | Add a b => xs ← eval σ a; ys ← eval σ b; broadcast Qplus xs ys
  | Mul a b => xs ← eval σ a; ys ← eval σ b; broadcast Qmult xs ys
  | ClipByNorm _ _ => None
  end.

(** *** The pattern of the bias names *)

Definition is_B (c : ascii) : bool :=
  bool_decide (c = "B"%char) || bool_decide (c = "b"%char).

(** [BIAS_REGEX.findall]: the matches of [[Bb]ias], left to right, none
    overlapping another. [skip] counts the characters of the last match
    that are still to pass. *)
Fixpoint findall_from (skip : nat) (s : string) : list string :=
  match s with
  | EmptyString => []
  | String c tl =>
      match skip with
      | S skip' => findall_from skip' tl
      | O =>
          if is_B c && String.prefix "ias" tl
          then String c "ias" :: findall_from 3 tl
          else findall_from 0 tl
      end
  end.

Definition BIAS_REGEX_findall (s : string) : list string :=
  findall_from 0 s.

(** [sub in s]. *)
Definition contains (sub s : string) : Prop :=
  ∃ pre post, s = pre +:+ sub +:+ post.

(** *** Summing the gradients *)

Section SumGradients.
(** [V]: the variables, compared as the keys of a [dict]; [T]: the
    gradients, with their [+]. *)
Context {V T : Type} `{EqDecision V}.
Variable add : T → T → T.

(** [summed_dict] in the order its keys were inserted. A new key goes to
    the end, a known key keeps its place. *)
Fixpoint dict_accumulate (summed_dict : list (V * T)) (var : V) (t : T)
  : list (V * T) :=
  match summed_dict with
  | [] => [(var, t)]
  | (var', t') :: rest =>
      if decide (var' = var) then (var', add t' t) :: rest
      else (var', t') :: dict_accumulate rest var t
  end.

Definition sum_entry (summed_dict : list (V * T)) (entry : option T * V)
  : list (V * T) :=
  match entry with
  | (Some t, var) => dict_accumulate summed_dict var t
  | (None, _) => summed_dict
  end.

Definition summed_dict_of (gradients_list : list (list (option T * V)))
  : list (V * T) :=
  foldl (foldl sum_entry) [] gradients_list.

Definition _sum_gradients (gradients_list : list (list (option T * V)))
  : list (T * V) :=
  (λ item, (item.2, item.1)) <$> summed_dict_of gradients_list.

(** The gradients that [var] receives, in the order the loops meet them,
    and their sum from the left ([None] when there is none). *)
Definition contribution (var : V) (entry : option T * V) : option T :=
  match entry with
  | (Some t, var') => if decide (var' = var) then Some t else None
  | (None, _) => None
  end.

Definition contributions (var : V)
    (gradients_list : list (list (option T * V))) : list T :=
  omap (contribution var) (concat gradients_list).

Definition sum_of (ts : list T) : option T :=
  match ts with
  | [] => None
  | t :: rest => Some (foldl add t rest)
  end.

(** The sum of a running value and further gradients. *)
Definition extend (o : option T) (ts : list T) : option T :=
  match o with
  | None => sum_of ts
  | Some s => Some (foldl add s ts)
  end.

(** [summed_dict.get(var)]. *)
Fixpoint dict_get (summed_dict : list (V * T)) (var : V) : option T :=
  match summed_dict with
  | [] => None
  | (var', t) :: rest =>
      if decide (var' = var) then Some t else dict_get rest var
  end.

End SumGradients.

(** *** The trainer *)

Definition Gradients : Type := list (option tensor * variable).

(** [decoder] is the identity of the decoder object. *)
Record Objective : Type := {
  objective_name : string;
  decoder : nat;
  loss : tensor;
  gradients : option Gradients
}.

Inductive optimizer : Type :=
| AdamOptimizer (learning_rate : Q)
| Optimizer (id : nat).

(** The operation made by [apply_gradients]. *)
Inductive operation : Type :=
| ApplyGradients (opt : optimizer) (grads_and_vars : list (tensor * variable)).

Inductive summary : Type :=
| SummaryNode (id : nat)
| ScalarSummary (tag : string) (value : scalar)
| HistogramSummary (tag : string) (value : tensor).

(** The tensor made by [tf.merge_summary]. *)
Inductive merged_summary : Type :=
| MergeSummary (inputs : list summary).

(** [set.union] on the unpacked [sets]: the unbound method needs its first
    argument. *)
Definition set_union (sets : list (gset nat)) : py_result (gset nat) :=
  match sets with
  | [] => Raise TypeError
  | s :: rest => Ok (foldl (∪) s rest)
  end.

Record GenericTrainer : Type := {
  self_optimizer : optimizer;
  self_losses : list scalar;
  self_all_coders : gset nat;
  self_train_op : operation;
  self_histogram_summaries : merged_summary;
  self_scalar_summaries : merged_summary;
  self_image_summaries : merged_summary
}.

(** The values fetched in a session: nothing for an operation, the bytes
    of a summary, the numbers of the losses. *)
Inductive fetched : Type :=
| FNone
| FBytes (s : string)
| FFloats (l : list Q).

Record ExecutionResult : Type := {
  outputs : list fetched;
  result_losses : list Q;
  result_scalar_summaries : option fetched;
  result_histogram_summaries : option fetched;
  result_image_summaries : option fetched
}.

Record TrainExecutable : Type := {
  all_coders : gset nat;
  train_op : operation;
  losses : list scalar;
  scalar_summaries : option merged_summary;
  histogram_summaries : option merged_summary;
  image_summaries : option merged_summary;
  result : option ExecutionResult
}.

(** What [next_to_execute] asks a session for. *)
Inductive fetch : Type :=
| FetchOperation (op : operation)
| FetchSummary (s : option merged_summary)
| FetchLosses (l : list scalar).

Section Trainer.
(** The graph the trainer is built in, and what it calls:
    [tf.trainable_variables()], [tf.get_collection] before the trainer
    adds its summaries, the optimizer's [compute_gradients], and
    [collect_encoders] on a decoder. *)
Variable trainable_variables : list variable.
Variable get_collection : string → list summary.
Variable compute_gradients : optimizer → tensor → Gradients.
Variable collect_encoders : nat → gset nat.

(** The list comprehension that makes [regularizable]: its filter, then
    its expression. *)
Definition regularized_variables : list variable :=
  filter (λ v, Is_true (truthy (BIAS_REGEX_findall (name v))))
         trainable_variables.

Definition regularizable : list tensor :=
  (λ v, ReduceSum (Pow (Var v) 2)) <$> regularized_variables.

Definition l1_value : scalar :=
  py_sum ((λ v, Ten (Abs v)) <$> regularizable).

Definition l2_value : scalar :=
  py_sum ((λ v, Ten (Mul v v)) <$> regularizable).

Definition regularization_cost (weight : Q) (value : scalar) : scalar :=
  if Qlt_le_dec 0 weight then py_mul (Num weight) value else Num 0.

Definition _get_gradients (opt : optimizer) (t : scalar) : Gradients :=
  compute_gradients opt (as_tensor t).

(** [clip_norm is not None], then the clipping of every gradient. *)
Definition clip_gradients (clip_norm : py_value)
    (grads : list (tensor * variable)) : list (tensor * variable) :=
  match clip_norm with
  | PyNone => grads
  | _ => (λ gv, (ClipByNorm gv.1 clip_norm, gv.2)) <$> grads
  end.

(** The aggregated gradients of [__init__], before they are clipped. *)
Definition summed_gradients (opt : optimizer) (objectives : list Objective)
    (l1_weight l2_weight : Q) : list (tensor * variable) :=
  let l1_cost := regularization_cost l1_weight l1_value in
  let l2_cost := regularization_cost l2_weight l2_value in
  let partial_gradients :=
    ((λ objective,
        match gradients objective with
        | None => _get_gradients opt (Ten (loss objective))
        | Some given => given
        end) <$> objectives)
    ++ (_get_gradients opt
          <$> filter (λ l, Is_true (ne_zero l)) [l1_cost; l2_cost]) in
  _sum_gradients Add partial_gradients.

Definition GenericTrainer_init (objectives : list Objective)
    (l1_weight l2_weight : Q) (clip_norm : py_value)
    (opt : option optimizer) : py_result GenericTrainer :=
  let opt := match opt with
             | None => AdamOptimizer (1 # 10000)
             | Some given => given
             end in
  let losses := (λ o, Ten (loss o)) <$> objectives in
  let losses := losses ++ [l1_value; l2_value] in
  let summary_train :=
    get_collection "summary_train"
    ++ [ScalarSummary "train_l1" l1_value;
        ScalarSummary "train_l2" l2_value] in
  let gradients := summed_gradients opt objectives l1_weight l2_weight in
  let gradients := clip_gradients clip_norm gradients in
  all_coders ← set_union ((λ obj, collect_encoders (decoder obj))
                          <$> objectives);
  let train_op := ApplyGradients opt gradients in
  let summary_gradients :=
    get_collection "summary_gradients"
    ++ ((λ gv, HistogramSummary ("gr_" +:+ name gv.2) gv.1)
        <$> gradients) in
  Ok {| self_optimizer := opt;
        self_losses := losses;
        self_all_coders := all_coders;
        self_train_op := train_op;
        self_histogram_summaries := MergeSummary summary_gradients;
        self_scalar_summaries := MergeSummary summary_train;
        self_image_summaries :=
          MergeSummary (get_collection "summary_val_plots") |}.

(** The defaults of the signature of [__init__]. *)
Definition GenericTrainer_new (objectives : list Objective)
  : py_result GenericTrainer :=
  GenericTrainer_init objectives 0 0 (PyBool false) None.

Definition get_executable (self : GenericTrainer) (train summaries : bool)
  : TrainExecutable :=
  {| all_coders := self_all_coders self;
     train_op := self_train_op self;
     losses := self_losses self;
     scalar_summaries :=
       if summaries then Some (self_scalar_summaries self) else None;
     histogram_summaries :=
       if summaries then Some (self_histogram_summaries self) else None;
     image_summaries :=
       if summaries then Some (self_image_summaries self) else None;
     result := None |}.

End Trainer.

(** *** The executable *)

Definition next_to_execute (self : TrainExecutable)
  : gset nat * gmap string fetch * gmap string fetched :=
  let fetches : gmap string fetch :=
    {[ "train_op" := FetchOperation (train_op self) ]} in
  let fetches :=
    match scalar_summaries self with
    | Some s =>
        <["image_summaries" := FetchSummary (image_summaries self)]>
          (<["histogram_summaries" :=
               FetchSummary (histogram_summaries self)]>
             (<["scalar_summaries" := FetchSummary (Some s)]> fetches))
    | None => fetches
    end in
  let fetches := <["losses" := FetchLosses (losses self)]> fetches in
  (all_coders self, fetches, ∅).

(** [x[i]] on a fetched value: an element of a sequence of numbers, a
    byte of a [bytes] value as its number; [None] cannot be indexed. *)
Definition fetched_getitem (x : fetched) (i : nat) : py_result Q :=
  match x with
  | FFloats l => list_getitem l i
  | FBytes s =>
      match String.get i s with
      | Some c => Ok (inject_Z (Z.of_nat (nat_of_ascii c)))
      | None => Raise IndexError
      end
  | FNone => Raise TypeError
  end.

(** [s / n] of a float by the length of a list. *)
Definition py_div (s : Q) (n : nat) : py_result Q :=
  match n with
  | O => Raise ZeroDivisionError
  | S _ => Ok (s / inject_Z (Z.of_nat n))%Q
  end.

(** [losses_sum[i] += session_result['losses'][i]]. *)
Definition add_loss (session_result : gmap string fetched)
    (losses_sum : list Q) (i : nat) : py_result (list Q) :=
  s ← list_getitem losses_sum i;
  fetched_losses ← dict_getitem session_result "losses";
  x ← fetched_getitem fetched_losses i;
  list_setitem losses_sum i (s + x)%Q.

(** A [for] loop over [items] whose body can raise. *)
Fixpoint for_each {A S : Type} (body : S → A → py_result S) (st : S)
    (items : list A) : py_result S :=
  match items with
  | [] => Ok st
  | x :: rest => st' ← body st x; for_each body st' rest
  end.

Definition add_session (self : TrainExecutable) (losses_sum : list Q)
    (session_result : gmap string fetched) : py_result (list Q) :=
  for_each (add_loss session_result) losses_sum (seq 0 (length (losses self))).

Definition collect_summaries (self : TrainExecutable)
    (results : list (gmap string fetched))
  : py_result (option fetched * option fetched * option fetched) :=
  match scalar_summaries self with
  | None => Ok (None, None, None)
  | Some _ =>
      first ← list_getitem results 0;
      scalar ← dict_getitem first "scalar_summaries";
      first ← list_getitem results 0;
      histogram ← dict_getitem first "histogram_summaries";
      first ← list_getitem results 0;
      image ← dict_getitem first "image_summaries";
      Ok (Some scalar, Some histogram, Some image)
  end.

Definition average_losses (self : TrainExecutable)
    (results : list (gmap string fetched)) : py_result (list Q) :=
  let losses_sum := (λ _, 0%Q) <$> losses self in
  losses_sum ← for_each (add_session self) losses_sum results;
  mapM (λ s, py_div s (length results)) losses_sum.

(** [collect_results] returns the executable with its [result] set. *)
Definition collect_results (self : TrainExecutable)
    (results : list (gmap string fetched)) : py_result TrainExecutable :=
  summaries ← collect_summaries self results;
  avg_losses ← average_losses self results;
  Ok {| all_coders := all_coders self;
        train_op := train_op self;
        losses := losses self;
        scalar_summaries := scalar_summaries self;
        histogram_summaries := histogram_summaries self;
        image_summaries := image_summaries self;
        result := Some {| outputs := [];
                          result_losses := avg_losses;
                          result_scalar_summaries := summaries.1.1;
                          result_histogram_summaries := summaries.1.2;
                          result_image_summaries := summaries.2 |} |}.

(** *** Sums, columns of losses, results of a session *)

Definition Qsum (xs : list Q) : Q := foldl Qplus 0%Q xs.

(** The value of [tf.reduce_sum(v ** 2)]. *)
Definition sum_of_squares (xs : list Q) : Q :=
  Qsum ((λ x, Qpower x 2) <$> xs).

(** A result of running the fetches of [next_to_execute] in a session: it
    has a value for every key of the fetches. *)
Definition context_result (self : TrainExecutable)
    (session_result : gmap string fetched) : Prop :=
  ∀ key, is_Some ((next_to_execute self).1.2 !! key) →
         is_Some (session_result !! key).

(** The loss sequence of a result, and the [i]-th loss of every result. *)
Definition losses_of (session_result : gmap string fetched)
  : option (list Q) :=
  match session_result !! "losses" with
  | Some (FFloats l) => Some l
  | _ => None
  end.

Definition losses_column (i : nat) (results : list (gmap string fetched))
  : list Q :=
  omap (λ session_result, l ← losses_of session_result; l !! i) results.

End GenericTrainer.

(** ** Concrete graphs, optimizers and executables *)

Module Inputs.
Import GenericTrainer.

Definition W : variable := {| name := "encoder/W" |}.
Definition b : variable := {| name := "encoder/bias" |}.
Definition B : variable := {| name := "decoder/Bias" |}.
Definition BIAS : variable := {| name := "decoder/BIAS" |}.

(** A session in which every variable is the scalar [-3.0]. *)
Definition minus_three (_ : variable) : list Q := [-3%Q].

(** An optimizer whose [compute_gradients] gives [W] the gradient
    [Node 100] and [b] none. *)
Definition gradients_of_W (_ : optimizer) (_ : tensor) : Gradients :=
  [(Some (Node 100), W); (None, b)].

Definition encoders_of (decoder : nat) : gset nat := {[ decoder ]}.

Definition no_summaries (_ : string) : list summary := [].

Definition objective : Objective :=
  {| objective_name := "target"; decoder := 1; loss := Node 7;
     gradients := None |}.

(** An executable with no losses and no summaries, and one with two
    losses. *)
Definition bare_executable : TrainExecutable :=
  {| all_coders := ∅; train_op := ApplyGradients (Optimizer 0) [];
     losses := []; scalar_summaries := None; histogram_summaries := None;
     image_summaries := None; result := None |}.

Definition two_losses : TrainExecutable :=
  {| all_coders := ∅; train_op := ApplyGradients (Optimizer 0) [];
     losses := [Ten (Node 0); Ten (Node 1)]; scalar_summaries := None;
     histogram_summaries := None; image_summaries := None;
     result := None |}.

Definition first_context : gmap string fetched :=
  {[ "train_op" := FNone; "losses" := FFloats [1%Q; 3%Q] ]}.

Definition second_context : gmap string fetched :=
  {[ "train_op" := FNone; "losses" := FFloats [2%Q; 5%Q] ]}.

(** An objective that brings its gradients. *)
Definition given_objective : Objective :=
  {| objective_name := "given"; decoder := 2; loss := Node 8;
     gradients := Some [(Some (Node 200), W)] |}.

(** An executable that asks for the summaries, and two results of its
    fetches. *)
Definition with_summaries : TrainExecutable :=
  {| all_coders := ∅; train_op := ApplyGradients (Optimizer 0) [];
     losses := [Ten (Node 0)];
     scalar_summaries := Some (MergeSummary []);
     histogram_summaries := Some (MergeSummary []);
     image_summaries := Some (MergeSummary []);
     result := None |}.

Definition first_summaries : gmap string fetched :=
  {[ "train_op" := FNone; "losses" := FFloats [1%Q];
     "scalar_summaries" := FBytes "scalar 1";
     "histogram_summaries" := FBytes "histogram 1";
     "image_summaries" := FBytes "image 1" ]}.

Definition second_summaries : gmap string fetched :=
  {[ "train_op" := FNone; "losses" := FFloats [2%Q];
     "scalar_summaries" := FBytes "scalar 2";
     "histogram_summaries" := FBytes "histogram 2";
     "image_summaries" := FBytes "image 2" ]}.

(** A result with one loss, and one without the losses. *)
Definition one_loss_context : gmap string fetched :=
  {[ "train_op" := FNone; "losses" := FFloats [1%Q] ]}.

Definition no_losses_context : gmap string fetched :=
  {[ "train_op" := FNone ]}.

End Inputs.

(** * Properties *)

Lemma bind_Ok {A B : Type} (x : A) (f : A → py_result B) :
  (Ok x ≫= f) = f x.
Proof. reflexivity. Qed.

Ltac py_ok := rewrite bind_Ok; cbv beta.

(** ** language_utils.py *)

Section CharBased.
Import LanguageUtils.

Lemma str_join_singleton_chars (s : string) :
  str_join "" (preprocess_char_based s) = s.
Proof.
  induction s as [|c rest IH]; [done|].
  cbn [preprocess_char_based str_join].
  destruct (preprocess_char_based rest) as [|x xs] eqn:Hrest.
  - destruct rest; [done | discriminate].
  - cbn. by rewrite <- IH.
Qed.

(** C9. Joining the characters [preprocess_char_based] lists gives the
    string back: for every string [s] and every second argument,
    [postprocess_char_based [preprocess_char_based s] _ = [[s]]], where
    [preprocess_char_based s] is the list of the characters of [s]. *)
Theorem char_based_roundtrip (A : Type) (s : string) (anything : A) :
  postprocess_char_based [preprocess_char_based s] anything = [[s]]
  ∧ length (preprocess_char_based s) = String.length s
  ∧ ∀ i c, String.get i s = Some c
           ↔ preprocess_char_based s !! i = Some (String c EmptyString).
Proof.
  split; [|split].
  - unfold postprocess_char_based. cbn. by rewrite str_join_singleton_chars.
  - induction s as [|c rest IH]; cbn; [done | by rewrite IH].
  - induction s as [|c rest IH]; intros i c'.
    + cbn. split; intros; discriminate.
    + destruct i as [|i]; cbn.
      * split; intros [= ->]; done.
      * apply IH.
Qed.
End CharBased.

Section German.
Import LanguageUtils.
Variables (capitalize lower : string → string).


Lemma list_get_last_is_Some {A : Type} (l : list A) (x : A) :
  last l = Some x → list_get_last l = Ok x.
Proof. unfold list_get_last. by intros ->. Qed.

Lemma list_set_last_ok {A : Type} (l : list A) (x : A) :
  l ≠ [] → ∃ l', list_set_last l x = Ok l' ∧ l' ≠ [] ∧ length l' = length l.
Proof.
  destruct l as [|y l]; [done|]. intros _. eexists. split; [done|].
  split.
  - intros Hnil. apply (f_equal length) in Hnil.
    rewrite length_insert in Hnil. discriminate.
  - by rewrite length_insert.
Qed.

Lemma truthy_true {A : Type} (l : list A) : truthy l = true ↔ l ≠ [].
Proof. destruct l; cbn; split; (done || congruence). Qed.

Lemma last_nonempty {A : Type} (l : list A) : l ≠ [] → is_Some (last l).
Proof.
  intros Hl. destruct (last l) eqn:E; [by eexists|].
  by apply last_None in E.
Qed.

Opaque CONTRACT.

Lemma postprocess_word_ok self st word :
  loop_inv st →
  ∃ st', postprocess_word lower self st word = Ok st' ∧ loop_inv st'
         ∧ (st.1 ≠ [] → st'.1 ≠ []).
Proof.
  destruct st as [result compound]. unfold loop_inv. cbn [fst snd].
  intros Hinv. unfold postprocess_word.
  destruct (contracting self
            && bool_decide (is_Some (contraction result word))) eqn:E1.
  { apply andb_prop in E1 as [_ Hc%bool_decide_eq_true].
    destruct Hc as [cont Hc]. unfold contraction in Hc.
    destruct (CONTRACT !! word) as [preps|] eqn:Hw; [|done].
    destruct (last result) as [prev|] eqn:Hl; [|done].
    change (preps !! prev = Some cont) in Hc.
    assert (result ≠ []) as Hne by (intros ->; discriminate).
    destruct (list_set_last_ok result cont Hne) as (r' & Hr' & Hr'ne & _).
    exists (r', compound).
    rewrite (list_get_last_is_Some _ _ Hl). py_ok.
    unfold dict_getitem. rewrite Hw. py_ok. rewrite Hc. py_ok.
    rewrite Hr'. py_ok. repeat split; auto. }
  destruct (pronouns self && String.prefix "<<" word) eqn:E2.
  { destruct (truthy result) eqn:Ht.
    - apply truthy_true in Ht.
      destruct (last_nonempty _ Ht) as [prev Hl].
      destruct (list_set_last_ok result (prev +:+ str_drop 2 word) Ht)
        as (r' & Hr' & Hr'ne & _).
      exists (r', compound).
      rewrite (list_get_last_is_Some _ _ Hl). py_ok. rewrite Hr'. py_ok.
      repeat split; auto.
    - exists (result, compound). repeat split; auto. }
  destruct (compounding self && truthy result
            && bool_decide (word = ">><<")) eqn:E3.
  { apply andb_prop in E3 as [[_ Ht%truthy_true]%andb_prop _].
    exists (result, true). repeat split; auto. }
  destruct (compounding self && compound) eqn:E4.
  { apply andb_prop in E4 as [_ ->].
    specialize (Hinv eq_refl).
    destruct (last_nonempty _ Hinv) as [prev Hl].
    destruct (list_set_last_ok result (prev +:+ lower word) Hinv)
      as (r' & Hr' & Hr'ne & _).
    exists (r', false).
    rewrite (list_get_last_is_Some _ _ Hl). py_ok. rewrite Hr'. py_ok.
    repeat split; auto. }
  exists (result ++ [word], compound). split; [done|].
  split; intros _ Hnil; by apply app_eq_nil in Hnil as [_ ?].
Qed.

Lemma postprocess_loop_ok self sentence st :
  loop_inv st → ∃ st', postprocess_loop lower self st sentence = Ok st'.
Proof.
  revert st. induction sentence as [|word rest IH]; intros st Hinv.
  - by eexists.
  - destruct (postprocess_word_ok self st word Hinv) as (st1 & H1 & Hi & _).
    cbn [postprocess_loop]. rewrite H1. py_ok. by apply IH.
Qed.

(** With the three features off, every word is appended. *)
Lemma postprocess_loop_plain result compound sentence :
  postprocess_loop lower {| compounding := false; contracting := false;
               pronouns := false |} (result, compound) sentence
  = Ok (result ++ sentence, compound).
Proof.
  revert result. induction sentence as [|word rest IH]; intros result.
  - by rewrite app_nil_r.
  - cbn. rewrite IH. by rewrite <- app_assoc.
Qed.

(** With the three features off the postprocessor is [untruecase]. *)
Lemma GermanPostprocessor_plain_untruecase sentence :
  GermanPostprocessor_call capitalize lower
    {| compounding := false; contracting := false; pronouns := false |}
    sentence
  = Ok (untruecase capitalize sentence).
Proof.
  unfold GermanPostprocessor_call. rewrite postprocess_loop_plain.
  by destruct sentence.
Qed.

Lemma GermanPostprocessor_call_ok self sentence :
  ∃ result compound,
    postprocess_loop lower self ([], false) sentence = Ok (result, compound)
    ∧ GermanPostprocessor_call capitalize lower self sentence
      = Ok (capitalize_first capitalize result).
Proof.
  destruct (postprocess_loop_ok self sentence ([], false))
    as [[result compound] Hloop]; [done|].
  exists result, compound. split; [done|].
  unfold GermanPostprocessor_call. by rewrite Hloop.
Qed.

(** C10. [GermanPostprocessor.__call__] returns for every sentence and
    every setting of [compounding], [contracting] and [pronouns]; when
    its output is not empty, the first word of the output is
    [capitalize] of the first word the loop produced and the other words
    are the loop's. With the three features off the output is the
    sentence with its first word capitalized, so the postprocessor is not
    the identity on a sentence whose first word [capitalize] changes. *)
Theorem GermanPostprocessor_capitalizes_first self sentence :
  (∃ out result compound,
      postprocess_loop lower self ([], false) sentence = Ok (result, compound)
      ∧ GermanPostprocessor_call capitalize lower self sentence = Ok out
      ∧ length out = length result
      ∧ (out ≠ [] → ∃ w rest, result = w :: rest
                               ∧ out = capitalize w :: rest))
  ∧ (∀ w rest,
       GermanPostprocessor_call capitalize lower
         {| compounding := false; contracting := false; pronouns := false |}
         (w :: rest)
       = Ok (capitalize w :: rest)).
Proof.
  split.
  - destruct (GermanPostprocessor_call_ok self sentence)
      as (result & compound & Hloop & Hcall).
    exists (capitalize_first capitalize result), result, compound.
    do 2 (split; [done|]). destruct result as [|w rest]; cbn; [done|].
    split; [done|]. intros _. by exists w, rest.
  - intros w rest. unfold GermanPostprocessor_call.
    by rewrite postprocess_loop_plain.
Qed.
End German.

Section GermanAscii.
Import LanguageUtils.

Lemma ascii_upper_not_lower c : is_ascii_lower (ascii_upper c) = false.
Proof. destruct c as [[] [] [] [] [] [] [] []]; reflexivity. Qed.

Lemma ascii_lower_not_upper c : is_ascii_upper (ascii_lower c) = false.
Proof. destruct c as [[] [] [] [] [] [] [] []]; reflexivity. Qed.

Lemma ascii_str_capitalize_capitalized s :
  capitalized (ascii_str_capitalize s) = true.
Proof.
  destruct s as [|c rest]; [done|]. cbn [ascii_str_capitalize capitalized].
  rewrite ascii_upper_not_lower. cbn.
  induction rest as [|d rest IH]; [done|].
  cbn. by rewrite ascii_lower_not_upper.
Qed.

(** On ASCII words the first word of every non-empty output is
    capitalized. *)
Lemma GermanPostprocessor_ascii_capitalized self sentence w rest :
  GermanPostprocessor_call ascii_str_capitalize ascii_str_lower self sentence
  = Ok (w :: rest) →
  capitalized w = true.
Proof.
  intros Hcall.
  destruct (GermanPostprocessor_call_ok
              ascii_str_capitalize ascii_str_lower self sentence)
    as (result & compound & _ & Hout).
  rewrite Hcall in Hout. destruct result as [|w0 rest0]; [done|].
  injection Hout as -> _. apply ascii_str_capitalize_capitalized.
Qed.

Example GermanPostprocessor_all_features :
  GermanPostprocessor_call ascii_str_capitalize ascii_str_lower
    {| compounding := true; contracting := true; pronouns := true |}
    ["in"; "dem"; "haus"; ">><<"; "Tuer"; "ein"; "<<en"]
  = Ok ["Im"; "haustuer"; "einen"].
Proof. vm_compute. reflexivity. Qed.

Example GermanPostprocessor_not_identity :
  GermanPostprocessor_call ascii_str_capitalize ascii_str_lower
    {| compounding := false; contracting := false; pronouns := false |}
    ["hallo"; "welt"]
  = Ok ["Hallo"; "welt"].
Proof. reflexivity. Qed.
End GermanAscii.

(** ** Summing the gradients *)

Section SumGradientsFacts.
Import GenericTrainer.
Context {V T : Type} `{EqDecision V}.
Variable add : T → T → T.

Implicit Types (d : list (V * T)) (var v : V) (t : T) (ts : list T).
Implicit Types (o : option T) (entries : list (option T * V)).
Implicit Types (gradients_list : list (list (option T * V))).

Lemma dict_get_accumulate d var t var' :
  dict_get (dict_accumulate add d var t) var'
  = if decide (var = var') then extend add (dict_get d var) [t]
    else dict_get d var'.
Proof.
  induction d as [|[v s] d IH]; cbn.
  - repeat case_decide; congruence.
  - destruct (decide (v = var)) as [->|Hne]; cbn.
    + repeat case_decide; congruence.
    + rewrite IH. repeat case_decide; congruence.
Qed.

Lemma dict_keys_accumulate d var t :
  (dict_accumulate add d var t).*1
  = if decide (var ∈ d.*1) then d.*1 else d.*1 ++ [var].
Proof.
  induction d as [|[v s] d IH]; cbn.
  - case_decide as Hin; [by apply elem_of_nil in Hin | done].
  - destruct (decide (v = var)) as [->|Hne]; cbn.
    + rewrite decide_True; [done | left].
    + rewrite IH. destruct (decide (var ∈ d.*1)) as [Hin|Hin].
      * rewrite decide_True; [done | by right].
      * rewrite decide_False; [done|].
        intros [?|?]%elem_of_cons; congruence.
Qed.

Lemma dict_accumulate_NoDup d var t :
  NoDup d.*1 → NoDup (dict_accumulate add d var t).*1.
Proof.
  intros Hd. rewrite dict_keys_accumulate. case_decide as Hin; [done|].
  apply NoDup_app. split_and!; [done | | apply NoDup_singleton].
  intros x Hx ->%list_elem_of_singleton. done.
Qed.

Lemma dict_get_None d var : dict_get d var = None ↔ var ∉ d.*1.
Proof.
  induction d as [|[v s] d IH]; cbn.
  - split; [intros _; apply not_elem_of_nil | done].
  - case_decide as Hv.
    + subst. split; [done | intros []; left].
    + rewrite IH, not_elem_of_cons.
      split; [intros ?; split; [congruence | done] | by intros [_ ?]].
Qed.

Lemma dict_get_Some d var t :
  NoDup d.*1 → dict_get d var = Some t ↔ (var, t) ∈ d.
Proof.
  induction d as [|[v s] d IH]; cbn; intros Hd.
  - split; [done | intros []%elem_of_nil].
  - apply NoDup_cons in Hd as [Hv Hd]. case_decide as Hvs.
    + subst. split.
      * intros [= ->]. left.
      * intros [[= ->]|Hin]%elem_of_cons; [done|].
        destruct Hv. by apply (list_elem_of_fmap_2 fst) in Hin.
    + rewrite (IH Hd). split; [by right|].
      intros [[= ? ?]|Hin]%elem_of_cons; [congruence | done].
Qed.

Lemma extend_app o ts1 ts2 :
  extend add (extend add o ts1) ts2
  = match ts1 with [] => extend add o ts2 | _ => extend add o (ts1 ++ ts2) end.
Proof.
  destruct o as [s|], ts1 as [|t ts1]; cbn; try done.
  all: by rewrite foldl_app.
Qed.

Lemma extend_app' o ts1 ts2 :
  extend add (extend add o ts1) ts2 = extend add o (ts1 ++ ts2).
Proof. rewrite extend_app. by destruct ts1. Qed.

Lemma sum_entries_get d entries var :
  dict_get (foldl (sum_entry add) d entries) var
  = extend add (dict_get d var) (omap (contribution var) entries).
Proof.
  revert d. induction entries as [|[[t|] v] entries IH]; intros d; cbn.
  - by destruct (dict_get d var).
  - rewrite IH, dict_get_accumulate.
    destruct (decide (v = var)) as [->|Hne]; cbn.
    + by rewrite extend_app'.
    + done.
  - by rewrite IH.
Qed.

Lemma sum_entries_NoDup d entries :
  NoDup d.*1 → NoDup (foldl (sum_entry add) d entries).*1.
Proof.
  revert d. induction entries as [|[[t|] v] entries IH]; intros d Hd; cbn.
  - done.
  - by apply IH, dict_accumulate_NoDup.
  - by apply IH.
Qed.

Lemma foldl_foldl_concat {A B : Type} (f : B → A → B) (b : B)
    (ls : list (list A)) :
  foldl (foldl f) b ls = foldl f b (concat ls).
Proof.
  revert b. induction ls as [|l ls IH]; intros b; cbn; [done|].
  by rewrite foldl_app, IH.
Qed.

Lemma summed_dict_get gradients_list var :
  dict_get (summed_dict_of add gradients_list) var
  = sum_of add (contributions var gradients_list).
Proof.
  unfold summed_dict_of, contributions.
  by rewrite foldl_foldl_concat, sum_entries_get.
Qed.

Lemma summed_dict_NoDup gradients_list :
  NoDup (summed_dict_of add gradients_list).*1.
Proof.
  unfold summed_dict_of. rewrite foldl_foldl_concat.
  apply sum_entries_NoDup, NoDup_nil_2.
Qed.

Lemma sum_gradients_elem_of gradients_list t var :
  (t, var) ∈ _sum_gradients add gradients_list
  ↔ sum_of add (contributions var gradients_list) = Some t.
Proof.
  rewrite <- summed_dict_get, dict_get_Some by apply summed_dict_NoDup.
  unfold _sum_gradients. rewrite list_elem_of_fmap. split.
  - intros ([v s] & [= -> ->] & Hin). done.
  - intros Hin. by exists (var, t).
Qed.

Lemma sum_gradients_vars gradients_list :
  (_sum_gradients add gradients_list).*2
  = (summed_dict_of add gradients_list).*1.
Proof.
  unfold _sum_gradients. rewrite <- list_fmap_compose.
  by apply list_fmap_ext.
Qed.

Lemma contribution_Some var (entry : option T * V) t :
  contribution var entry = Some t ↔ entry = (Some t, var).
Proof.
  destruct entry as [[t'|] v]; cbn; [|done].
  case_decide; split; congruence.
Qed.

Lemma contributions_elem_of gradients_list var t :
  t ∈ contributions var gradients_list
  ↔ (Some t, var) ∈ concat gradients_list.
Proof.
  unfold contributions. rewrite list_elem_of_omap. split.
  - by intros (entry & Hin & ->%contribution_Some).
  - intros Hin. eexists. split; [done|]. by apply contribution_Some.
Qed.

Lemma sum_gradients_var_elem_of gradients_list var :
  var ∈ (_sum_gradients add gradients_list).*2
  ↔ ∃ t, (Some t, var) ∈ concat gradients_list.
Proof.
  rewrite sum_gradients_vars. split.
  - intros Hin.
    destruct (contributions var gradients_list) as [|t ts] eqn:Hc.
    + exfalso. revert Hin. apply dict_get_None.
      by rewrite summed_dict_get, Hc.
    + exists t. apply contributions_elem_of. rewrite Hc. left.
  - intros [t Ht%contributions_elem_of].
    destruct (decide (var ∈ (summed_dict_of add gradients_list).*1))
      as [|Hin]; [done|].
    apply dict_get_None in Hin. rewrite summed_dict_get in Hin.
    destruct (contributions var gradients_list); [|done].
    by apply elem_of_nil in Ht.
Qed.

(** C4. [_sum_gradients] returns one entry for every variable that some
    input list gives a gradient other than [None], and for no other
    variable: no variable occurs twice, a variable occurs exactly when an
    entry [(Some t, var)] is in the input, its gradient is the sum, from
    the left and in the order of the input, of the gradients the input
    gives it, and a variable whose gradients are all [None] has no
    entry. *)
Theorem sum_gradients_aggregates
    (gradients_list : list (list (option T * V))) :
  NoDup (_sum_gradients add gradients_list).*2
  ∧ (∀ var, var ∈ (_sum_gradients add gradients_list).*2
            ↔ ∃ t, (Some t, var) ∈ concat gradients_list)
  ∧ (∀ t var, (t, var) ∈ _sum_gradients add gradients_list
              ↔ sum_of add (contributions var gradients_list) = Some t)
  ∧ (∀ var, (∀ g, (g, var) ∈ concat gradients_list → g = None) →
            ∀ t, (t, var) ∉ _sum_gradients add gradients_list).
Proof.
  split_and!.
  - rewrite sum_gradients_vars. apply summed_dict_NoDup.
  - apply sum_gradients_var_elem_of.
  - apply sum_gradients_elem_of.
  - intros var Hnone t Hin. apply (list_elem_of_fmap_2 snd) in Hin.
    apply sum_gradients_var_elem_of in Hin as [t' Ht'].
    by apply Hnone in Ht'.
Qed.

Lemma foldl_add_permutation ts ts' :
  (∀ x y z, add x (add y z) = add (add x y) z) →
  (∀ x y, add x y = add y x) →
  ts ≡ₚ ts' → ∀ s, foldl add s ts = foldl add s ts'.
Proof.
  intros Hassoc Hcomm Hperm.
  induction Hperm as [|x ts ts' _ IH|x y ts|ts1 ts2 ts3 _ IH1 _ IH2];
    intros s; cbn.
  - done.
  - apply IH.
  - f_equal. by rewrite <- !Hassoc, (Hcomm x y).
  - by rewrite IH1.
Qed.

Lemma sum_of_permutation ts ts' :
  (∀ x y z, add x (add y z) = add (add x y) z) →
  (∀ x y, add x y = add y x) →
  ts ≡ₚ ts' → sum_of add ts = sum_of add ts'.
Proof.
  intros Hassoc Hcomm Hperm.
  induction Hperm as [|x ts ts' Hperm _|x y ts|ts1 ts2 ts3 _ IH1 _ IH2];
    cbn.
  - done.
  - f_equal. by apply foldl_add_permutation.
  - by rewrite (Hcomm y x).
  - by rewrite IH1.
Qed.

Lemma contributions_permutation gradients_list gradients_list' var :
  gradients_list ≡ₚ gradients_list' →
  contributions var gradients_list ≡ₚ contributions var gradients_list'.
Proof. intros Hperm. unfold contributions. by rewrite Hperm. Qed.

Lemma sum_gradients_NoDup gradients_list :
  NoDup (_sum_gradients add gradients_list).
Proof.
  apply (NoDup_fmap_1 snd). rewrite sum_gradients_vars.
  apply summed_dict_NoDup.
Qed.

(** C5. When [+] on the gradients is associative and commutative,
    [_sum_gradients] of a permutation of the input lists gives every
    variable the same sum: the same pairs of a sum and a variable, up to
    the order of the output list. *)
Theorem sum_gradients_permutation
    (gradients_list gradients_list' : list (list (option T * V))) :
  (∀ x y z, add x (add y z) = add (add x y) z) →
  (∀ x y, add x y = add y x) →
  gradients_list ≡ₚ gradients_list' →
  _sum_gradients add gradients_list ≡ₚ _sum_gradients add gradients_list'
  ∧ ∀ var, dict_get (summed_dict_of add gradients_list) var
           = dict_get (summed_dict_of add gradients_list') var.
Proof.
  intros Hassoc Hcomm Hperm.
  assert (∀ var, sum_of add (contributions var gradients_list)
                 = sum_of add (contributions var gradients_list')) as Hsum.
  { intros var. apply sum_of_permutation; [done..|].
    by apply contributions_permutation. }
  split.
  - apply NoDup_Permutation; [apply sum_gradients_NoDup..|].
    intros [t var]. by rewrite !sum_gradients_elem_of, Hsum.
  - intros var. by rewrite !summed_dict_get.
Qed.
End SumGradientsFacts.

Section SumGradientsExamples.
Import GenericTrainer.

(** The example of the specification: [A] and [B] each get one gradient
    and one [None]. *)
Example sum_gradients_skips_None :
  _sum_gradients Qplus
    [[(None, "A"); (Some 5%Q, "B")]; [(Some 7%Q, "A"); (None, "B")]]
  = [(5%Q, "B"); (7%Q, "A")].
Proof. reflexivity. Qed.

Example sum_gradients_adds :
  _sum_gradients Qplus [[(Some 1%Q, "A")]; [(Some 1%Q, "A")]]
  = [((1 + 1)%Q, "A")].
Proof. reflexivity. Qed.

Lemma Qplus_assoc_eq (x y z : Q) : (x + (y + z) = (x + y) + z)%Q.
Proof.
  destruct x as [a b], y as [c d], z as [e f]. unfold Qplus. cbn.
  f_equal; [|by rewrite Pos.mul_assoc].
  rewrite !Pos2Z.inj_mul. ring.
Qed.

Lemma Qplus_comm_eq (x y : Q) : (x + y = y + x)%Q.
Proof.
  destruct x as [a b], y as [c d]. unfold Qplus. cbn.
  f_equal; [ring | by rewrite Pos.mul_comm].
Qed.

Lemma sum_gradients_permutation_witness :
  let gl := [[(None, "A"); (Some 5%Q, "B")];
             [(Some 7%Q, "A"); (Some 1%Q, "B")]] in
  let gl' := [[(Some 7%Q, "A"); (Some 1%Q, "B")];
              [(None, "A"); (Some 5%Q, "B")]] in
  _sum_gradients Qplus gl ≡ₚ _sum_gradients Qplus gl'
  ∧ ∀ var, dict_get (summed_dict_of Qplus gl) var
           = dict_get (summed_dict_of Qplus gl') var.
Proof.
  apply (sum_gradients_permutation Qplus).
  - apply Qplus_assoc_eq.
  - apply Qplus_comm_eq.
  - apply perm_swap.
Defined.
End SumGradientsExamples.

(** ** The trainer *)

Section BiasPattern.
Import GenericTrainer.

Lemma prefix_app (p s : string) :
  String.prefix p s = true ↔ ∃ post, s = p +:+ post.
Proof.
  revert s. induction p as [|a p IH]; intros [|b s]; cbn.
  - split; [intros _; by exists "" | done].
  - split; [intros _; by exists (String b s) | done].
  - split; [done | by intros [? ?]].
  - destruct (ascii_dec a b) as [->|Hne].
    + rewrite IH. split.
      * intros [post ->]. by exists post.
      * intros [post [= ->]]. by exists post.
    + split; [done | intros [post [= ? ?]]; done].
Qed.

Lemma is_B_spec (c : ascii) :
  is_B c = true ↔ c = "B"%char ∨ c = "b"%char.
Proof.
  unfold is_B. rewrite orb_true_iff, !bool_decide_eq_true. done.
Qed.

(** [BIAS_REGEX.search]: is there a match at all. *)
Lemma findall_truthy (s : string) :
  truthy (BIAS_REGEX_findall s) = true
  ↔ ∃ pre post c, is_B c = true ∧ s = pre +:+ String c ("ias" +:+ post).
Proof.
  unfold BIAS_REGEX_findall. induction s as [|c tl IH].
  - split; [done|]. intros (pre & post & c & _ & Heq). by destruct pre.
  - cbn [findall_from].
    destruct (is_B c && String.prefix "ias" tl) eqn:Hhere.
    + split; [intros _ | done].
      apply andb_prop in Hhere as [Hc [post ->]%prefix_app].
      by exists "", post, c.
    + rewrite IH. split.
      * intros (pre & post & c' & Hc' & ->).
        by exists (String c pre), post, c'.
      * intros (pre & post & c' & Hc' & Heq).
        destruct pre as [|c0 pre]; cbn in Heq.
        -- injection Heq as -> ->. rewrite Hc' in Hhere.
           assert (String.prefix "ias" ("ias" +:+ post) = true) as Hpre
             by (apply prefix_app; by exists post).
           rewrite Hpre in Hhere. done.
        -- injection Heq as -> ->. by exists pre, post, c'.
Qed.

(** A name matches [BIAS_REGEX] exactly when it contains [bias] or
    [Bias]. *)
Lemma findall_truthy_contains (s : string) :
  truthy (BIAS_REGEX_findall s) = true
  ↔ contains "bias" s ∨ contains "Bias" s.
Proof.
  rewrite findall_truthy. unfold contains. split.
  - intros (pre & post & c & [-> | ->]%is_B_spec & ->).
    + right. by exists pre, post.
    + left. by exists pre, post.
  - intros [(pre & post & ->) | (pre & post & ->)].
    + by exists pre, post, "b"%char.
    + by exists pre, post, "B"%char.
Qed.

Example BIAS_upper_case_does_not_match :
  BIAS_REGEX_findall "decoder/BIAS" = [].
Proof. reflexivity. Qed.
End BiasPattern.

Section TrainerFacts.
Import GenericTrainer.
Variable trainable_variables : list variable.
Variable get_collection : string → list summary.
Variable compute_gradients : optimizer → tensor → Gradients.
Variable collect_encoders : nat → gset nat.

(** The filter of the list comprehension keeps the variables whose name
    matches [BIAS_REGEX]. *)
Lemma regularized_variables_spec (v : variable) :
  v ∈ regularized_variables trainable_variables
  ↔ v ∈ trainable_variables
    ∧ (contains "bias" (name v) ∨ contains "Bias" (name v)).
Proof.
  unfold regularized_variables. rewrite list_elem_of_filter.
  rewrite Is_true_true, findall_truthy_contains.
  split; intros [? ?]; split; assumption.
Qed.

Lemma eval_regularizable σ (v : variable) :
  eval σ (ReduceSum (Pow (Var v) 2)) = Some [sum_of_squares (σ v)].
Proof. reflexivity. Qed.

Lemma py_add_Ten (x : scalar) (t : tensor) :
  py_add x (Ten t) = Ten (Add (as_tensor x) t).
Proof. by destruct x. Qed.

Lemma eval_py_sum σ (items : list tensor) (vals : list Q) acc a :
  Forall2 (λ t x, eval σ t = Some [x]) items vals →
  eval σ (as_tensor acc) = Some [a] →
  eval σ (as_tensor (foldl py_add acc (Ten <$> items)))
  = Some [foldl Qplus a vals].
Proof.
  intros Hitems. revert acc a.
  induction Hitems as [|t x items vals Ht _ IH]; intros acc a Hacc; cbn.
  - done.
  - apply IH. rewrite py_add_Ten. cbn. by rewrite Hacc, Ht.
Qed.

(** What the graph of [l1_value] and of [l2_value] evaluates to. *)
Lemma l1_value_eval σ :
  eval σ (as_tensor (l1_value trainable_variables))
  = Some [Qsum ((λ v, Qabs (sum_of_squares (σ v)))
                <$> regularized_variables trainable_variables)].
Proof.
  transitivity
    (eval σ (as_tensor (foldl py_add (Num 0)
       (Ten <$> ((λ v, Abs (ReduceSum (Pow (Var v) 2)))
                 <$> regularized_variables trainable_variables))))).
  { unfold l1_value, py_sum, regularizable.
    by rewrite <- !list_fmap_compose. }
  apply eval_py_sum; [|done].
  apply Forall2_fmap, Forall_Forall2_diag, Forall_forall. by intros v _.
Qed.

Lemma l2_value_eval σ :
  eval σ (as_tensor (l2_value trainable_variables))
  = Some [Qsum ((λ v, sum_of_squares (σ v) * sum_of_squares (σ v))%Q
                <$> regularized_variables trainable_variables)].
Proof.
  transitivity
    (eval σ (as_tensor (foldl py_add (Num 0)
       (Ten <$> ((λ v, Mul (ReduceSum (Pow (Var v) 2))
                           (ReduceSum (Pow (Var v) 2)))
                 <$> regularized_variables trainable_variables))))).
  { unfold l2_value, py_sum, regularizable.
    by rewrite <- !list_fmap_compose. }
  apply eval_py_sum; [|done].
  apply Forall2_fmap, Forall_Forall2_diag, Forall_forall. by intros v _.
Qed.

Lemma clip_gradients_None (grads : list (tensor * variable)) :
  clip_gradients PyNone grads = grads.
Proof. reflexivity. Qed.

Lemma clip_gradients_not_None clip_norm (grads : list (tensor * variable)) :
  clip_norm ≠ PyNone →
  clip_gradients clip_norm grads
  = (λ gv, (ClipByNorm gv.1 clip_norm, gv.2)) <$> grads.
Proof. by destruct clip_norm. Qed.

(** With objectives the construction returns, and these are the gradients
    it hands to [apply_gradients]. *)
Lemma GenericTrainer_init_train_op objective objectives l1_weight l2_weight
    clip_norm opt :
  ∃ trainer,
    GenericTrainer_init trainable_variables get_collection compute_gradients
      collect_encoders (objective :: objectives) l1_weight l2_weight
      clip_norm opt = Ok trainer
    ∧ self_train_op trainer
      = ApplyGradients (self_optimizer trainer)
          (clip_gradients clip_norm
             (summed_gradients trainable_variables compute_gradients
                (self_optimizer trainer) (objective :: objectives)
                l1_weight l2_weight))
    ∧ length (self_losses trainer) = S (S (S (length objectives))).
Proof.
  eexists. unfold GenericTrainer_init. cbn [fmap list_fmap set_union].
  rewrite bind_Ok. split; [done|]. cbn. split; [done|].
  rewrite length_app, length_fmap. cbn. lia.
Qed.

(** C8. [GenericTrainer.__init__] on an empty list of objectives raises:
    [set.union] is called without an argument. No trainer is returned,
    whatever the other arguments are. *)
Theorem GenericTrainer_init_no_objectives l1_weight l2_weight clip_norm opt :
  GenericTrainer_init trainable_variables get_collection compute_gradients
    collect_encoders [] l1_weight l2_weight clip_norm opt
  = Raise TypeError.
Proof. reflexivity. Qed.
End TrainerFacts.

Section TrainerAtInputs.
Import GenericTrainer Inputs.

(** C1 (the code at the failing input). Of the trainable variables
    [encoder/W], [encoder/bias], [decoder/Bias] and [decoder/BIAS] the
    list comprehension of [__init__] keeps [encoder/bias] and
    [decoder/Bias], the two whose name matches [BIAS_REGEX], and the
    penalties are computed from them; [encoder/W] is left out. *)
Theorem regularizable_keeps_the_biases :
  regularized_variables [W; b; B; BIAS] = [b; B]
  ∧ regularizable [W; b; B; BIAS]
    = [ReduceSum (Pow (Var b) 2); ReduceSum (Pow (Var B) 2)]
  ∧ W ∉ regularized_variables [W; b; B; BIAS].
Proof.
  split; [reflexivity|]. split; [reflexivity|].
  intros Hin%regularized_variables_spec. destruct Hin as [_ Hin].
  apply findall_truthy_contains in Hin. done.
Qed.

(** C2 (the code at the failing input). With [encoder/bias] the only
    trainable variable, a scalar of value [-3.0], [l1_value] evaluates to
    [9.0] and [l2_value] to [81.0]; with [encoder/W] the only trainable
    variable, [l1_value] and [l2_value] are the integer [0]. *)
Theorem l1_value_of_minus_three :
  eval minus_three (as_tensor (l1_value [b])) = Some [9%Q]
  ∧ eval minus_three (as_tensor (l2_value [b])) = Some [81%Q]
  ∧ l1_value [W] = Num 0 ∧ l2_value [W] = Num 0.
Proof. repeat split; reflexivity. Qed.

(** C3 (the code at the failing input). A trainer built with [clip_norm]
    left at its default, [False], hands [apply_gradients] the gradient of
    [encoder/W] wrapped in [tf.clip_by_norm(grad, False)], not the
    aggregated gradient itself. *)
Theorem default_clip_norm_clips :
  ∃ trainer,
    GenericTrainer_new [W; b] no_summaries gradients_of_W encoders_of
      [objective] = Ok trainer
    ∧ summed_gradients [W; b] gradients_of_W (self_optimizer trainer)
        [objective] 0 0 = [(Node 100, W)]
    ∧ self_train_op trainer
      = ApplyGradients (AdamOptimizer (1 # 10000))
          [(ClipByNorm (Node 100) (PyBool false), W)]
    ∧ self_train_op trainer
      ≠ ApplyGradients (AdamOptimizer (1 # 10000)) [(Node 100, W)].
Proof. eexists. repeat split; [reflexivity..|]. discriminate. Qed.

(** Only [clip_norm=None] leaves the gradients as they are. *)
Example clip_norm_None_does_not_clip :
  ∃ trainer,
    GenericTrainer_init [W; b] no_summaries gradients_of_W encoders_of
      [objective] 0 0 PyNone None = Ok trainer
    ∧ self_train_op trainer
      = ApplyGradients (AdamOptimizer (1 # 10000)) [(Node 100, W)].
Proof. eexists. split; reflexivity. Qed.

Example clip_norm_one_clips :
  ∃ trainer,
    GenericTrainer_init [W; b] no_summaries gradients_of_W encoders_of
      [objective] 0 0 (PyFloat 1) None = Ok trainer
    ∧ self_train_op trainer
      = ApplyGradients (AdamOptimizer (1 # 10000))
          [(ClipByNorm (Node 100) (PyFloat 1), W)].
Proof. eexists. split; reflexivity. Qed.
End TrainerAtInputs.

(** ** The executable *)

Section ExecutableFacts.
Import GenericTrainer.
Implicit Types (self : TrainExecutable) (losses_sum ls : list Q).
Implicit Types (session_result : gmap string fetched).
Implicit Types (results : list (gmap string fetched)).

Lemma losses_of_Some session_result ls :
  losses_of session_result = Some ls
  ↔ session_result !! "losses" = Some (FFloats ls).
Proof.
  unfold losses_of. destruct (session_result !! "losses") as [[]|].
  all: split; congruence.
Qed.

Lemma add_loss_ok session_result losses_sum ls i s x :
  losses_of session_result = Some ls →
  losses_sum !! i = Some s → ls !! i = Some x →
  add_loss session_result losses_sum i = Ok (<[i := (s + x)%Q]> losses_sum).
Proof.
  intros Hls%losses_of_Some Hs Hx. unfold add_loss, list_getitem.
  rewrite Hs. py_ok. unfold dict_getitem. rewrite Hls. py_ok.
  cbn. unfold list_getitem. rewrite Hx. py_ok.
  unfold list_setitem. apply lookup_lt_Some in Hs. by rewrite decide_True.
Qed.

(** The inner loop from index [k] on, [n] rounds. *)
Lemma add_losses_from session_result ls n k losses_sum :
  losses_of session_result = Some ls →
  k + n ≤ length losses_sum → k + n ≤ length ls →
  ∃ losses_sum',
    for_each (add_loss session_result) losses_sum (seq k n) = Ok losses_sum'
    ∧ ∀ j, losses_sum' !! j
           = if decide (k ≤ j < k + n)
             then s ← losses_sum !! j; x ← ls !! j; Some (s + x)%Q
             else losses_sum !! j.
Proof.
  intros Hls. revert k losses_sum.
  induction n as [|n IH]; intros k losses_sum Hsum Hlen; cbn [seq for_each].
  - exists losses_sum. split; [done|]. intros j.
    rewrite decide_False; [done | lia].
  - destruct (lookup_lt_is_Some_2 losses_sum k) as [s Hs]; [lia|].
    destruct (lookup_lt_is_Some_2 ls k) as [x Hx]; [lia|].
    rewrite (add_loss_ok _ _ _ _ _ _ Hls Hs Hx). py_ok.
    destruct (IH (S k) (<[k := (s + x)%Q]> losses_sum))
      as (losses_sum' & Hloop & Hget).
    { rewrite length_insert. lia. }
    { lia. }
    exists losses_sum'. split; [done|]. intros j. rewrite Hget.
    destruct (decide (j = k)) as [->|Hne].
    + rewrite decide_False by lia. rewrite decide_True by lia.
      rewrite list_lookup_insert_eq by lia. by rewrite Hs, Hx.
    + rewrite list_lookup_insert_ne by done.
      repeat case_decide; (done || lia).
Qed.

Lemma add_session_ok self session_result ls losses_sum :
  losses_of session_result = Some ls →
  length losses_sum = length (losses self) →
  length ls = length (losses self) →
  add_session self losses_sum session_result
  = Ok (zip_with Qplus losses_sum ls).
Proof.
  intros Hls Hsum Hlen. unfold add_session.
  destruct (add_losses_from session_result ls (length (losses self)) 0
              losses_sum Hls) as (losses_sum' & -> & Hget); [lia..|].
  f_equal. apply list_eq. intros j. rewrite Hget, lookup_zip_with.
  case_decide as Hj; [done|].
  rewrite (lookup_ge_None_2 losses_sum) by lia. done.
Qed.

(** The outer loop: every sum grows by its column of the results. *)
Lemma add_sessions_ok self results losses_sum :
  Forall (λ session_result,
            ∃ ls, losses_of session_result = Some ls
                  ∧ length ls = length (losses self)) results →
  length losses_sum = length (losses self) →
  ∃ losses_sum',
    for_each (add_session self) losses_sum results = Ok losses_sum'
    ∧ length losses_sum' = length (losses self)
    ∧ ∀ i s, losses_sum !! i = Some s →
             losses_sum' !! i
             = Some (foldl Qplus s (losses_column i results))
               ∧ length (losses_column i results) = length results.
Proof.
  intros Hresults. revert losses_sum.
  induction Hresults as [|session_result results (ls & Hls & Hlen) _ IH];
    intros losses_sum Hsum; cbn [for_each].
  - exists losses_sum. by repeat split.
  - rewrite (add_session_ok _ _ ls) by done. py_ok.
    destruct (IH (zip_with Qplus losses_sum ls))
      as (losses_sum' & Hloop & Hlen' & Hget).
    { rewrite length_zip_with. lia. }
    exists losses_sum'. split; [done|]. split; [done|]. intros i s Hs.
    destruct (lookup_lt_is_Some_2 ls i) as [x Hx].
    { apply lookup_lt_Some in Hs. lia. }
    destruct (Hget i (s + x)%Q) as [Hi Hcol].
    { rewrite lookup_zip_with, Hs, Hx. done. }
    unfold losses_column in *. cbn [omap list_omap]. rewrite Hls. cbn.
    rewrite Hx. cbn. by rewrite Hi, Hcol.
Qed.

Lemma mapM_py_div (n : nat) losses_sum :
  n ≠ 0 →
  mapM (λ s, py_div s n) losses_sum
  = Ok ((λ s, s / inject_Z (Z.of_nat n))%Q <$> losses_sum).
Proof.
  intros Hn. induction losses_sum as [|s losses_sum IH]; cbn; [done|].
  destruct n as [|n]; [done|]. cbn [py_div]. py_ok.
  change (mapM ?f ?l) with (mapM f l) in IH. cbn in IH. rewrite IH. done.
Qed.

Lemma collect_summaries_ok self session_result results :
  context_result self session_result →
  ∃ summaries,
    collect_summaries self (session_result :: results) = Ok summaries
    ∧ (scalar_summaries self = None → summaries = (None, None, None)).
Proof.
  intros Hkeys. unfold collect_summaries.
  destruct (scalar_summaries self) as [s|] eqn:Hs; [|by eexists].
  assert (∀ key, key = "scalar_summaries" ∨ key = "histogram_summaries"
                 ∨ key = "image_summaries" →
                 is_Some (session_result !! key)) as Hkey.
  { intros key Hkey. apply Hkeys. unfold next_to_execute. rewrite Hs. cbn.
    destruct Hkey as [-> | [-> | ->]]; by simplify_map_eq. }
  destruct (Hkey "scalar_summaries") as [x1 H1]; [tauto|].
  destruct (Hkey "histogram_summaries") as [x2 H2]; [tauto|].
  destruct (Hkey "image_summaries") as [x3 H3]; [tauto|].
  eexists. split; [|discriminate].
  cbn. unfold dict_getitem. rewrite H1, H2, H3. reflexivity.
Qed.

Lemma average_losses_ok self results :
  results ≠ [] →
  Forall (λ session_result,
            ∃ ls, losses_of session_result = Some ls
                  ∧ length ls = length (losses self)) results →
  ∃ avg_losses,
    average_losses self results = Ok avg_losses
    ∧ length avg_losses = length (losses self)
    ∧ ∀ i, i < length (losses self) →
           avg_losses !! i
           = Some (Qsum (losses_column i results)
                   / inject_Z (Z.of_nat (length results)))%Q
           ∧ length (losses_column i results) = length results.
Proof.
  intros Hne Hresults. unfold average_losses.
  destruct (add_sessions_ok self results ((λ _, 0%Q) <$> losses self))
    as (losses_sum & -> & Hlen & Hget); [done | by rewrite length_fmap |].
  py_ok. rewrite mapM_py_div by by destruct results.
  eexists. split; [done|]. split; [by rewrite length_fmap|].
  intros i Hi. destruct (Hget i 0%Q) as [Hsum Hcol].
  { rewrite list_lookup_fmap.
    by destruct (lookup_lt_is_Some_2 (losses self) i Hi) as [? ->]. }
  by rewrite list_lookup_fmap, Hsum.
Qed.

(** C7. For results of running the fetches, at least one, whose loss
    sequences all have the length of the losses of the executable,
    [collect_results] returns and sets [result]; the losses of the result
    are as many as the losses of the executable, and the [i]-th is the
    sum of the [i]-th losses of all the results divided by the number of
    results. *)
Theorem collect_results_averages self results :
  results ≠ [] →
  Forall (context_result self) results →
  Forall (λ session_result,
            ∃ ls, losses_of session_result = Some ls
                  ∧ length ls = length (losses self)) results →
  ∃ self' execution_result,
    collect_results self results = Ok self'
    ∧ result self' = Some execution_result
    ∧ length (result_losses execution_result) = length (losses self)
    ∧ ∀ i, i < length (losses self) →
           result_losses execution_result !! i
           = Some (Qsum (losses_column i results)
                   / inject_Z (Z.of_nat (length results)))%Q
           ∧ length (losses_column i results) = length results.
Proof.
  intros Hne Hkeys Hlosses.
  destruct (average_losses_ok self results Hne Hlosses)
    as (avg_losses & Havg & Hlen & Hget).
  destruct results as [|session_result results]; [done|].
  apply Forall_cons in Hkeys as [Hkeys _].
  destruct (collect_summaries_ok self _ results Hkeys)
    as (summaries & Hsummaries & _).
  unfold collect_results. rewrite Hsummaries. py_ok. rewrite Havg. py_ok.
  eexists _, _. split; [done|]. cbn. repeat split; (done || by apply Hget).
Qed.

(** What [collect_results] does with no results. *)
Lemma collect_results_nil self :
  collect_results self []
  = match scalar_summaries self, losses self with
    | Some _, _ => Raise IndexError
    | None, _ :: _ => Raise ZeroDivisionError
    | None, [] =>
        Ok {| all_coders := all_coders self; train_op := train_op self;
              losses := []; scalar_summaries := None;
              histogram_summaries := histogram_summaries self;
              image_summaries := image_summaries self;
              result := Some {| outputs := []; result_losses := [];
                                result_scalar_summaries := None;
                                result_histogram_summaries := None;
                                result_image_summaries := None |} |}
    end.
Proof.
  unfold collect_results, collect_summaries, average_losses.
  destruct (scalar_summaries self) as [s|] eqn:Hs; [done|].
  by destruct (losses self) as [|l ls] eqn:Hl.
Qed.

(** C6. [collect_results] on an empty list of results raises on every
    executable that [get_executable] returns, for every trainer the
    constructor builds: the losses of a trainer end with [l1_value] and
    [l2_value], so the division by [len(results)] raises
    [ZeroDivisionError], and [results[0]] raises [IndexError] before that
    when the executable asks for summaries. No result is set. The
    constructor returns such a trainer for every list of objectives that
    is not empty. In general [collect_results] raises on an empty list
    exactly when the executable asks for summaries or has at least one
    loss. *)
Theorem collect_results_no_results :
  (∀ self, raises (collect_results self [])
           ↔ is_Some (scalar_summaries self) ∨ losses self ≠ [])
  ∧ (∀ trainable_variables get_collection compute_gradients
       collect_encoders objectives l1_weight l2_weight clip_norm opt
       trainer train summaries,
       GenericTrainer_init trainable_variables get_collection
         compute_gradients collect_encoders objectives l1_weight l2_weight
         clip_norm opt = Ok trainer →
       raises (collect_results (get_executable trainer train summaries) []))
  ∧ (∀ trainable_variables get_collection compute_gradients
       collect_encoders objectives l1_weight l2_weight clip_norm opt
       trainer train summaries,
       GenericTrainer_init trainable_variables get_collection
         compute_gradients collect_encoders objectives l1_weight l2_weight
         clip_norm opt = Ok trainer →
       collect_results (get_executable trainer train summaries) []
       = Raise (if summaries then IndexError else ZeroDivisionError))
  ∧ (∀ trainable_variables get_collection compute_gradients
       collect_encoders objective objectives l1_weight l2_weight clip_norm
       opt,
       ∃ trainer,
         GenericTrainer_init trainable_variables get_collection
           compute_gradients collect_encoders (objective :: objectives)
           l1_weight l2_weight clip_norm opt = Ok trainer).
Proof.
  assert (∀ self, raises (collect_results self [])
                  ↔ is_Some (scalar_summaries self) ∨ losses self ≠ [])
    as Hraises.
  { intros self. rewrite collect_results_nil. unfold raises.
    destruct (scalar_summaries self) as [s|]; [|destruct (losses self)].
    - split; [by left; eexists | by eexists].
    - split; [by intros [? ?] | intros [[? ?]|?]; done].
    - split; [by right | by eexists]. }
  assert (∀ trainable_variables get_collection compute_gradients
            collect_encoders objectives l1_weight l2_weight clip_norm opt
            trainer,
            GenericTrainer_init trainable_variables get_collection
              compute_gradients collect_encoders objectives l1_weight
              l2_weight clip_norm opt = Ok trainer →
            self_losses trainer ≠ []) as Hlosses.
  { intros tv gc cg ce objectives l1 l2 clip opt trainer Hinit.
    unfold GenericTrainer_init in Hinit.
    destruct (set_union _) as [coders|]; [|done]. injection Hinit as <-.
    cbn. intros Hnil%(f_equal length). rewrite length_app in Hnil.
    cbn in Hnil. lia. }
  split; [done|]. split; [|split].
  - intros tv gc cg ce objectives l1 l2 clip opt trainer train summaries
      Hinit.
    apply Hraises. right. cbn. by eapply Hlosses.
  - intros tv gc cg ce objectives l1 l2 clip opt trainer train summaries
      Hinit.
    apply Hlosses in Hinit. rewrite collect_results_nil.
    destruct summaries; cbn; [done|].
    by destruct (self_losses trainer).
  - intros tv gc cg ce objective objectives l1 l2 clip opt.
    destruct (GenericTrainer_init_train_op tv gc cg ce objective objectives
                l1 l2 clip opt) as (trainer & Hinit & _).
    by exists trainer.
Qed.
End ExecutableFacts.

Section ExecutableAtInputs.
Import GenericTrainer Inputs.

(** An executable put together by hand, with no losses and no summaries:
    the constructor makes none like it. On it [collect_results] with an
    empty list of results does not raise and returns a result whose list
    of losses is empty, which is why the losses of the trainer matter
    above. *)
Lemma bare_executable_returns_empty_losses :
  collect_results bare_executable []
  = Ok {| all_coders := ∅; train_op := ApplyGradients (Optimizer 0) [];
          losses := []; scalar_summaries := None;
          histogram_summaries := None; image_summaries := None;
          result := Some {| outputs := []; result_losses := [];
                            result_scalar_summaries := None;
                            result_histogram_summaries := None;
                            result_image_summaries := None |} |}
  ∧ ¬ raises (collect_results bare_executable []).
Proof. split; [reflexivity|]. by intros [e He]. Qed.

Lemma collect_results_no_results_witness :
  ∃ trainer,
    GenericTrainer_new [W; b] no_summaries gradients_of_W encoders_of
      [objective] = Ok trainer
    ∧ raises (collect_results (get_executable trainer false true) [])
    ∧ collect_results (get_executable trainer false false) []
      = Raise ZeroDivisionError.
Proof.
  eexists. split; [reflexivity|]. split.
  - apply (proj1 (proj2 collect_results_no_results)
             [W; b] no_summaries gradients_of_W encoders_of [objective]
             0%Q 0%Q (PyBool false) None _ false true).
    reflexivity.
  - apply (proj1 (proj2 (proj2 collect_results_no_results))
             [W; b] no_summaries gradients_of_W encoders_of [objective]
             0%Q 0%Q (PyBool false) None _ false false).
    reflexivity.
Defined.

Example collect_results_two_losses_no_results :
  collect_results two_losses [] = Raise ZeroDivisionError.
Proof. reflexivity. Qed.

Lemma context_result_first : context_result two_losses first_context.
Proof.
  intros key [x Hx]. unfold next_to_execute in Hx. cbn in Hx.
  unfold first_context.
  destruct (decide (key = "losses")) as [->|]; [by simplify_map_eq|].
  destruct (decide (key = "train_op")) as [->|]; [by simplify_map_eq|].
  by simplify_map_eq.
Qed.

Lemma context_result_second : context_result two_losses second_context.
Proof.
  intros key [x Hx]. unfold next_to_execute in Hx. cbn in Hx.
  unfold second_context.
  destruct (decide (key = "losses")) as [->|]; [by simplify_map_eq|].
  destruct (decide (key = "train_op")) as [->|]; [by simplify_map_eq|].
  by simplify_map_eq.
Qed.

Lemma collect_results_averages_witness :
  ∃ self' execution_result,
    collect_results two_losses [first_context; second_context] = Ok self'
    ∧ result self' = Some execution_result
    ∧ length (result_losses execution_result) = length (losses two_losses)
    ∧ ∀ i, i < length (losses two_losses) →
           result_losses execution_result !! i
           = Some (Qsum (losses_column i [first_context; second_context])
                   / inject_Z (Z.of_nat
                                 (length [first_context; second_context])))%Q
           ∧ length (losses_column i [first_context; second_context])
             = length [first_context; second_context].
Proof.
  apply (collect_results_averages two_losses [first_context; second_context]).
  - discriminate.
  - repeat constructor.
    + apply context_result_first.
    + apply context_result_second.
  - repeat constructor.
    + exists [1%Q; 3%Q]. split; reflexivity.
    + exists [2%Q; 5%Q]. split; reflexivity.
Defined.

(** The example of the specification: losses [1.0, 3.0] and [2.0, 5.0]
    average to [1.5, 4.0]. *)
Example collect_results_average_of_two :
  ∃ self' execution_result,
    collect_results two_losses [first_context; second_context] = Ok self'
    ∧ result self' = Some execution_result
    ∧ Forall2 Qeq (result_losses execution_result) [(3 # 2)%Q; 4%Q].
Proof.
  eexists _, _. split; [vm_compute; reflexivity|]. split; [reflexivity|].
  repeat constructor.
Qed.
End ExecutableAtInputs.

(** * Further properties *)

(** ** The German pre- and postprocessor *)

Section GermanLengths.
Import LanguageUtils.
Variables (capitalize lower : string → string).

Opaque CONTRACT UNCONTRACT.

Lemma bind_Ok_inv {A B : Type} (m : py_result A) (f : A → py_result B) y :
  m ≫= f = Ok y → ∃ x, m = Ok x ∧ f x = Ok y.
Proof. destruct m as [x|e]; [by exists x | discriminate]. Qed.

Lemma list_set_last_length {A : Type} (l l' : list A) (x : A) :
  list_set_last l x = Ok l' → length l' = length l.
Proof.
  destruct l as [|y l]; [discriminate|]. intros [= <-].
  by rewrite length_insert.
Qed.

Lemma postprocess_word_length self st word st' :
  postprocess_word lower self st word = Ok st' →
  length st'.1 ≤ S (length st.1).
Proof.
  destruct st as [result compound]. unfold postprocess_word. cbn [fst].
  repeat case_match; intros Hst;
    repeat (apply bind_Ok_inv in Hst as (? & ? & Hst));
    try (injection Hst as <-); cbn [fst];
    try (erewrite list_set_last_length by eassumption);
    rewrite ?length_app; cbn; lia.
Qed.

Lemma postprocess_loop_length self sentence st st' :
  postprocess_loop lower self st sentence = Ok st' →
  length st'.1 ≤ length st.1 + length sentence.
Proof.
  revert st. induction sentence as [|word rest IH]; intros st.
  - intros [= <-]. lia.
  - cbn [postprocess_loop]. intros (st1 & H1 & Hrest)%bind_Ok_inv.
    apply postprocess_word_length in H1. apply IH in Hrest. cbn. lia.
Qed.

Lemma capitalize_first_length result :
  length (capitalize_first capitalize result) = length result.
Proof. by destruct result. Qed.

(** X1. [GermanPostprocessor.__call__] raises on no sentence, whatever the
    three features are, and its output never has more words than the
    sentence. *)
Theorem GermanPostprocessor_never_longer self sentence :
  ∃ out, GermanPostprocessor_call capitalize lower self sentence = Ok out
         ∧ length out ≤ length sentence.
Proof.
  destruct (GermanPostprocessor_call_ok capitalize lower self sentence)
    as (result & compound & Hloop & Hcall).
  eexists. split; [exact Hcall|].
  rewrite capitalize_first_length.
  by apply postprocess_loop_length in Hloop.
Qed.

End GermanLengths.

Section Preprocessing.
Import LanguageUtils.
Variable capitalize : string → string.

Opaque CONTRACT UNCONTRACT.

Lemma UNCONTRACT_CONTRACTIONS word :
  word ∈ CONTRACTIONS_SET →
  ∃ prep article, UNCONTRACT !! word = Some [prep; article].
Proof.
  unfold CONTRACTIONS_SET. rewrite elem_of_list_to_set, list_elem_of_In.
  intros Hin.
  assert (forallb (λ word, match UNCONTRACT !! word with
                           | Some [_; _] => true
                           | _ => false
                           end) CONTRACTIONS = true) as Hall
    by (vm_compute; reflexivity).
  rewrite forallb_forall in Hall. specialize (Hall word Hin).
  destruct (UNCONTRACT !! word) as [[|prep [|article [|]]]|]; try done.
  by exists prep, article.
Qed.

Lemma split_from_nonempty sep skip cur s : split_from sep skip cur s ≠ [].
Proof.
  revert skip cur. induction s as [|c rest IH]; intros skip cur; [done|].
  cbn [split_from]. destruct skip; [|apply IH].
  destruct (String.prefix sep (String c rest)); [done | apply IH].
Qed.

Lemma foldl_append_acc {A B : Type} (f : A → list B) (acc out : list B)
    (items : list A) :
  foldl (λ result x, result ++ f x) (acc ++ out) items
  = acc ++ foldl (λ result x, result ++ f x) out items.
Proof.
  revert out. induction items as [|x items IH]; intros out; [done|].
  cbn. rewrite <- app_assoc. apply IH.
Qed.

Lemma foldl_append_length {A B : Type} (f : A → list B) (out : list B)
    (items : list A) :
  length out ≤ length (foldl (λ result x, result ++ f x) out items).
Proof.
  revert out. induction items as [|x items IH]; intros out; [done|].
  cbn. etransitivity; [|apply IH]. rewrite length_app. lia.
Qed.

(** One round of the loop appends at least one word, and the words it
    appends are the same for every [result]. *)
Lemma preprocess_word_appends self word :
  ∃ out, 1 ≤ length out
         ∧ ∀ result,
             preprocess_word capitalize self result word = Ok (result ++ out).
Proof.
  unfold preprocess_word.
  destruct (pre_contracting self && bool_decide (word ∈ CONTRACTIONS_SET))
    eqn:E1.
  { apply andb_prop in E1 as [_ Hin%bool_decide_eq_true].
    destruct (UNCONTRACT_CONTRACTIONS word Hin) as (prep & article & Hw).
    exists [prep; article]. split; [cbn; lia|]. intros result.
    unfold dict_getitem. by rewrite Hw. }
  destruct (if pre_pronouns self then EIN_TYPE_PRONOUNS_match word else None)
    as [[stem ending]|].
  { eexists. split; [|done]. cbn; lia. }
  destruct (if pre_pronouns self then DER_TYPE_PRONOUNS_match word else None)
    as [[stem ending]|].
  { eexists. split; [|done]. cbn; lia. }
  destruct (pre_compounding self
            && bool_decide (-1 < str_find ">><<" word)%Z).
  2: { exists [word]. split; [cbn; lia | done]. }
  unfold str_split.
  destruct (split_from ">><<" 0 "" word) as [|first rest] eqn:Hsplit.
  { by apply split_from_nonempty in Hsplit. }
  exists (foldl (λ result wrd, result ++ [">><<"] ++ [capitalize wrd])
                [first] rest).
  split.
  - etransitivity; [|apply (foldl_append_length
                              (λ wrd, [">><<"] ++ [capitalize wrd]))].
    cbn; lia.
  - intros result. cbn [list_getitem lookup list_lookup drop]. py_ok.
    by rewrite (foldl_append_acc (λ wrd, [">><<"] ++ [capitalize wrd])).
Qed.

Lemma preprocess_loop_appends self sentence :
  ∃ out, length sentence ≤ length out
         ∧ ∀ result,
             preprocess_loop capitalize self result sentence
             = Ok (result ++ out).
Proof.
  induction sentence as [|word rest (out & Hlen & IH)].
  - exists []. split; [done|]. intros result. by rewrite app_nil_r.
  - destruct (preprocess_word_appends self word) as (ws & Hws & Hword).
    exists (ws ++ out). split; [rewrite length_app; cbn; lia|].
    intros result. cbn [preprocess_loop]. rewrite Hword. py_ok.
    by rewrite IH, app_assoc.
Qed.

Lemma preprocess_loop_app self s1 s2 result :
  preprocess_loop capitalize self result (s1 ++ s2)
  = preprocess_loop capitalize self result s1
      ≫= λ result', preprocess_loop capitalize self result' s2.
Proof.
  revert result. induction s1 as [|word rest IH]; intros result; [done|].
  cbn [app preprocess_loop].
  destruct (preprocess_word capitalize self result word); [|done].
  py_ok. apply IH.
Qed.

(** X2. [GermanPreprocessor.__call__] raises on no sentence, and its
    output has at least as many words as the sentence. *)
Theorem GermanPreprocessor_never_shorter self sentence :
  ∃ out, GermanPreprocessor_call capitalize self sentence = Ok out
         ∧ length sentence ≤ length out.
Proof.
  destruct (preprocess_loop_appends self sentence) as (out & Hlen & Hloop).
  exists out. split; [|done]. unfold GermanPreprocessor_call.
  by rewrite Hloop.
Qed.

(** X3. The preprocessor works word by word: the output for two sentences
    one after the other is the output for the first followed by the
    output for the second. *)
Theorem GermanPreprocessor_app self s1 s2 :
  ∃ out1 out2,
    GermanPreprocessor_call capitalize self s1 = Ok out1
    ∧ GermanPreprocessor_call capitalize self s2 = Ok out2
    ∧ GermanPreprocessor_call capitalize self (s1 ++ s2) = Ok (out1 ++ out2).
Proof.
  destruct (preprocess_loop_appends self s1) as (out1 & _ & H1).
  destruct (preprocess_loop_appends self s2) as (out2 & _ & H2).
  exists out1, out2. unfold GermanPreprocessor_call.
  rewrite preprocess_loop_app, !H1. py_ok. by rewrite !H2.
Qed.

(** X4. With the three features off the preprocessor returns the sentence
    as it is. *)
Theorem GermanPreprocessor_plain sentence :
  GermanPreprocessor_call capitalize
    {| pre_compounding := false; pre_contracting := false;
       pre_pronouns := false |} sentence
  = Ok sentence.
Proof.
  unfold GermanPreprocessor_call.
  enough (∀ result,
            preprocess_loop capitalize
              {| pre_compounding := false; pre_contracting := false;
                 pre_pronouns := false |} result sentence
            = Ok (result ++ sentence)) as H by apply (H []).
  induction sentence as [|word rest IH]; intros result.
  - by rewrite app_nil_r.
  - cbn. rewrite IH. by rewrite <- app_assoc.
Qed.

End Preprocessing.

Section GermanTables.
Import LanguageUtils.

Opaque CONTRACT UNCONTRACT.

Lemma UNCONTRACT_to_CONTRACT cont prep article :
  UNCONTRACT !! cont = Some [prep; article] →
  ∃ preps, CONTRACT !! article = Some preps ∧ preps !! prep = Some cont.
Proof.
  intros Hin%elem_of_map_to_list%list_elem_of_In.
  assert (forallb
            (λ entry : string * list string,
               match entry.2 with
               | [prep; article] =>
                   bool_decide ((CONTRACT !! article
                                   ≫= λ preps, preps !! prep)
                                = Some entry.1)
               | _ => true
               end) (map_to_list UNCONTRACT) = true) as Hall
    by (vm_compute; reflexivity).
  rewrite forallb_forall in Hall.
  apply Hall, bool_decide_eq_true in Hin. cbn [snd fst] in Hin.
  destruct (CONTRACT !! article) as [preps|]; [|done]. by exists preps.
Qed.

Lemma CONTRACT_to_UNCONTRACT cont prep article preps :
  CONTRACT !! article = Some preps → preps !! prep = Some cont →
  UNCONTRACT !! cont = Some [prep; article].
Proof.
  intros Harticle%elem_of_map_to_list%list_elem_of_In
         Hin%elem_of_map_to_list%list_elem_of_In.
  assert (forallb
            (λ entry : string * gmap string string,
               forallb
                 (λ inner : string * string,
                    bool_decide (UNCONTRACT !! inner.2
                                 = Some [inner.1; entry.1]))
                 (map_to_list entry.2))
            (map_to_list CONTRACT) = true) as Hall
    by (vm_compute; reflexivity).
  rewrite forallb_forall in Hall. apply Hall in Harticle.
  rewrite forallb_forall in Harticle.
  by apply Harticle, bool_decide_eq_true in Hin.
Qed.

(** X5. [CONTRACT] is [UNCONTRACT] read backwards: a contraction is
    uncontracted to a preposition and an article exactly when [CONTRACT]
    has the contraction under that article and that preposition. *)
Theorem CONTRACT_inverts_UNCONTRACT cont prep article :
  UNCONTRACT !! cont = Some [prep; article]
  ↔ ∃ preps, CONTRACT !! article = Some preps ∧ preps !! prep = Some cont.
Proof.
  split; [apply UNCONTRACT_to_CONTRACT|].
  intros (preps & Harticle & Hprep).
  by apply (CONTRACT_to_UNCONTRACT _ _ _ preps).
Qed.

Lemma str_drop_app (p s : string) : str_drop (String.length p) (p +:+ s) = s.
Proof. induction p as [|c p IH]; [done | apply IH]. Qed.

Lemma at_end_spec (s : string) : at_end s = true ↔ s = "" ∨ s = newline.
Proof.
  unfold at_end. rewrite orb_true_iff, !bool_decide_eq_true. done.
Qed.

Lemma first_match_Some {A B : Type} (f : A → option B) (l : list A) (y : B) :
  first_match f l = Some y → ∃ x, x ∈ l ∧ f x = Some y.
Proof.
  induction l as [|x l IH]; [done|]. cbn.
  destruct (f x) as [y'|] eqn:Hx.
  - intros [= ->]. exists x. split; [left | done].
  - intros (x' & Hin & Hx')%IH. exists x'. split; [by right | done].
Qed.

Lemma str_app_assoc (a b c : string) : (a +:+ b) +:+ c = a +:+ (b +:+ c).
Proof.
  induction a as [|x a IH]; [done|].
  change (String x ((a +:+ b) +:+ c) = String x (a +:+ b +:+ c)).
  by rewrite IH.
Qed.

Lemma str_app_empty_r (a : string) : a +:+ "" = a.
Proof.
  induction a as [|x a IH]; [done|].
  change (String x (a +:+ "") = String x a). by rewrite IH.
Qed.

Lemma match_ending_Some endings rest ending :
  match_ending endings rest = Some ending →
  ending ∈ endings ∧ (rest = ending ∨ rest = ending +:+ newline).
Proof.
  intros (e & Hin & He)%first_match_Some.
  destruct (String.prefix e rest
            && at_end (str_drop (String.length e) rest)) eqn:E; [|done].
  injection He as ->. split; [done|].
  apply andb_prop in E as [[post ->]%prefix_app Hend].
  rewrite str_drop_app in Hend. apply at_end_spec in Hend as [-> | ->].
  - left. by rewrite str_app_empty_r.
  - by right.
Qed.

Lemma match_stem_ending_Some stems endings word stem ending :
  match_stem_ending stems endings word = Some (stem, ending) →
  stem ∈ stems ∧ ending ∈ endings
  ∧ (word = stem +:+ ending ∨ word = stem +:+ ending +:+ newline).
Proof.
  intros (s & Hin & Hs)%first_match_Some.
  destruct (String.prefix s word) eqn:E; [|done].
  apply prefix_app in E as [post ->]. rewrite str_drop_app in Hs.
  destruct (match_ending endings post) as [e|] eqn:He; [|done].
  injection Hs as -> ->.
  apply match_ending_Some in He as [? [-> | ->]]; auto.
Qed.

Lemma match_stem_ending_complete stems endings :
  forallb (λ stem_ending : string * string,
             bool_decide (match_stem_ending stems endings
                            (stem_ending.1 +:+ stem_ending.2)
                          = Some stem_ending)
             && bool_decide (match_stem_ending stems endings
                               (stem_ending.1 +:+ stem_ending.2 +:+ newline)
                             = Some stem_ending))
          (list_prod stems endings) = true →
  ∀ word stem ending,
    stem ∈ stems → ending ∈ endings →
    word = stem +:+ ending ∨ word = stem +:+ ending +:+ newline →
    match_stem_ending stems endings word = Some (stem, ending).
Proof.
  rewrite forallb_forall. intros Hall word stem ending Hs He Hword.
  specialize (Hall (stem, ending)). rewrite in_prod_iff in Hall.
  rewrite <- !list_elem_of_In in Hall.
  apply andb_prop in Hall as [H1 H2]; [|done].
  apply bool_decide_eq_true in H1, H2.
  by destruct Hword as [-> | ->].
Qed.

(** X6. The two pronoun patterns match a word exactly when it is one of
    their stems followed by one of the endings [e], [es], [er], [em] and
    [en], with at most a newline after it; the groups of the match are
    that stem and that ending. *)
Theorem pronoun_patterns_match word stem ending :
  (EIN_TYPE_PRONOUNS_match word = Some (stem, ending)
   ↔ stem ∈ EIN_TYPE_STEMS ∧ ending ∈ PRONOUN_ENDINGS
     ∧ (word = stem +:+ ending ∨ word = stem +:+ ending +:+ newline))
  ∧ (DER_TYPE_PRONOUNS_match word = Some (stem, ending)
     ↔ stem ∈ DER_TYPE_STEMS ∧ ending ∈ PRONOUN_ENDINGS
       ∧ (word = stem +:+ ending ∨ word = stem +:+ ending +:+ newline)).
Proof.
  split; (split; [apply match_stem_ending_Some|]).
  - intros (Hs & He & Hword).
    by apply (match_stem_ending_complete EIN_TYPE_STEMS PRONOUN_ENDINGS).
  - intros (Hs & He & Hword).
    by apply (match_stem_ending_complete DER_TYPE_STEMS PRONOUN_ENDINGS).
Qed.

End GermanTables.

Section GermanRoundTrip.
Import LanguageUtils.
Variables (capitalize lower : string → string).
Implicit Types (result sentence : list string) (word : string).

Opaque CONTRACT UNCONTRACT.

Lemma postprocess_loop_app self sentence1 sentence2 st :
  postprocess_loop lower self st (sentence1 ++ sentence2)
  = postprocess_loop lower self st sentence1
      ≫= λ st', postprocess_loop lower self st' sentence2.
Proof.
  revert st. induction sentence1 as [|word rest IH]; intros st; [done|].
  cbn [app postprocess_loop].
  destruct (postprocess_word lower self st word); [|done].
  py_ok. apply IH.
Qed.

Lemma list_get_last_snoc {A : Type} (l : list A) (x : A) :
  list_get_last (l ++ [x]) = Ok x.
Proof. unfold list_get_last. by rewrite last_snoc. Qed.

Lemma list_set_last_snoc {A : Type} (l : list A) (x y : A) :
  list_set_last (l ++ [x]) y = Ok (l ++ [y]).
Proof.
  unfold list_set_last. destruct (l ++ [x]) as [|z l'] eqn:E.
  { by apply app_eq_nil in E as [_ ?]. }
  rewrite <- E, length_app. cbn [length].
  replace (pred (length l + 1)) with (length l + 0) by lia.
  by rewrite insert_app_r.
Qed.

Lemma contraction_not_article result word :
  CONTRACT !! word = None → contraction result word = None.
Proof. unfold contraction. by intros ->. Qed.

Lemma contraction_snoc result prev word :
  contraction (result ++ [prev]) word = contraction [prev] word.
Proof. unfold contraction. by rewrite last_snoc. Qed.

Lemma contraction_nil word : contraction [] word = None.
Proof. unfold contraction. by destruct (CONTRACT !! word). Qed.

Lemma str_find_marker : str_find ">><<" ">><<" ≠ (-1)%Z.
Proof. by vm_compute. Qed.

(** A word that is no article after its preposition, does not start
    with [<<] and is not the compound marker is appended. *)
Lemma postprocess_word_appends self result word :
  contraction result word = None →
  String.prefix "<<" word = false →
  word ≠ ">><<" →
  postprocess_word lower self (result, false) word
  = Ok (result ++ [word], false).
Proof.
  intros Hc Hp Hm. unfold postprocess_word. rewrite Hc, Hp.
  rewrite (bool_decide_eq_false_2 (is_Some None)) by (by intros [? ?]).
  rewrite (bool_decide_eq_false_2 (word = ">><<")) by done.
  by rewrite !andb_false_r.
Qed.

(** The preposition of a contraction. *)
Lemma UNCONTRACT_forms cont prep article :
  UNCONTRACT !! cont = Some [prep; article] →
  CONTRACT !! prep = None ∧ String.prefix "<<" prep = false
  ∧ prep ≠ ">><<".
Proof.
  intros Hin%elem_of_map_to_list%list_elem_of_In.
  assert (forallb
            (λ entry : string * list string,
               match entry.2 with
               | prep :: _ =>
                   bool_decide (CONTRACT !! prep = None)
                   && negb (String.prefix "<<" prep)
                   && negb (bool_decide (prep = ">><<"))
               | _ => true
               end) (map_to_list UNCONTRACT) = true) as Hall
    by (vm_compute; reflexivity).
  rewrite forallb_forall in Hall. apply Hall in Hin. cbn [snd] in Hin.
  apply andb_prop in Hin as [[H1 H2]%andb_prop H3].
  apply bool_decide_eq_true in H1. apply negb_true_iff in H2, H3.
  apply bool_decide_eq_false in H3. exact (conj H1 (conj H2 H3)).
Qed.

Lemma pronoun_stems stems stem :
  forallb (λ stem, bool_decide (CONTRACT !! stem = None)
                   && negb (String.prefix "<<" stem)
                   && negb (bool_decide (stem = ">><<"))) stems = true →
  stem ∈ stems →
  CONTRACT !! stem = None ∧ String.prefix "<<" stem = false
  ∧ stem ≠ ">><<".
Proof.
  rewrite forallb_forall. intros Hall Hin%list_elem_of_In.
  apply Hall in Hin. apply andb_prop in Hin as [[H1 H2]%andb_prop H3].
  apply bool_decide_eq_true in H1. apply negb_true_iff in H2, H3.
  apply bool_decide_eq_false in H3. exact (conj H1 (conj H2 H3)).
Qed.

Lemma pronoun_endings ending :
  ending ∈ PRONOUN_ENDINGS → CONTRACT !! ("<<" +:+ ending) = None.
Proof.
  intros Hin%list_elem_of_In.
  assert (forallb (λ ending,
                     bool_decide (CONTRACT !! ("<<" +:+ ending) = None))
                  PRONOUN_ENDINGS = true) as Hall
    by (vm_compute; reflexivity).
  rewrite forallb_forall in Hall.
  by apply Hall, bool_decide_eq_true in Hin.
Qed.

(** What the postprocessor makes of the two words a pronoun is split
    into. *)
Lemma postprocess_pronoun self stems result word stem ending :
  pronouns self = true →
  forallb (λ stem, bool_decide (CONTRACT !! stem = None)
                   && negb (String.prefix "<<" stem)
                   && negb (bool_decide (stem = ">><<"))) stems = true →
  match_stem_ending stems PRONOUN_ENDINGS word = Some (stem, ending) →
  (∀ pre, word ≠ pre +:+ newline) →
  postprocess_loop lower self (result, false) [stem; "<<" +:+ ending]
  = Ok (result ++ [word], false).
Proof.
  intros Hpron Hstems (Hstem & Hending & Hword)%match_stem_ending_Some Hnl.
  destruct Hword as [-> | ->].
  2: { by destruct (Hnl (stem +:+ ending)); rewrite str_app_assoc. }
  destruct (pronoun_stems stems stem Hstems Hstem) as (Hs1 & Hs2 & Hs3).
  cbn [postprocess_loop].
  rewrite postprocess_word_appends
    by auto using contraction_not_article.
  py_ok. unfold postprocess_word.
  rewrite contraction_not_article by by apply pronoun_endings.
  rewrite (bool_decide_eq_false_2 (is_Some None)) by (by intros [? ?]).
  rewrite andb_false_r, Hpron.
  assert (String.prefix "<<" ("<<" +:+ ending) = true) as ->
    by (apply prefix_app; by exists ending).
  cbn [andb]. replace (truthy (result ++ [stem])) with true
    by (by destruct result).
  rewrite list_get_last_snoc. py_ok. rewrite list_set_last_snoc. done.
Qed.

(** One word through the preprocessor and what it gives through the
    postprocessor. *)
Lemma roundtrip_word (comp contr pron : bool) result word :
  str_find ">><<" word = (-1)%Z →
  String.prefix "<<" word = false →
  (∀ pre, word ≠ pre +:+ newline) →
  contraction result word = None →
  ∃ out,
    (∀ acc, preprocess_word capitalize
              {| pre_compounding := comp; pre_contracting := contr;
                 pre_pronouns := pron |} acc word = Ok (acc ++ out))
    ∧ postprocess_loop lower
        {| compounding := comp; contracting := contr; pronouns := pron |}
        (result, false) out
      = Ok (result ++ [word], false).
Proof.
  intros Hfind Hprefix Hnl Hc.
  assert (word ≠ ">><<") as Hm.
  { intros ->. by apply str_find_marker. }
  unfold preprocess_word. cbn [pre_compounding pre_contracting pre_pronouns].
  destruct (contr && bool_decide (word ∈ CONTRACTIONS_SET)) eqn:E1.
  { apply andb_prop in E1 as [-> Hin%bool_decide_eq_true].
    destruct (UNCONTRACT_CONTRACTIONS word Hin) as (prep & article & Hw).
    destruct (UNCONTRACT_forms _ _ _ Hw) as (Hp1 & Hp2 & Hp3).
    destruct (UNCONTRACT_to_CONTRACT _ _ _ Hw) as (preps & Ha & Hp).
    exists [prep; article]. split.
    { intros acc. unfold dict_getitem. by rewrite Hw. }
    cbn [postprocess_loop].
    rewrite postprocess_word_appends
      by auto using contraction_not_article.
    py_ok. unfold postprocess_word. cbn [contracting].
    rewrite contraction_snoc.
    assert (contraction [prep] article = Some word) as ->.
    { unfold contraction. rewrite Ha. cbn. exact Hp. }
    rewrite bool_decide_eq_true_2 by by eexists. cbn [andb].
    rewrite list_get_last_snoc. py_ok.
    unfold dict_getitem. rewrite Ha. py_ok. rewrite Hp. py_ok.
    by rewrite list_set_last_snoc. }
  destruct pron.
  - destruct (EIN_TYPE_PRONOUNS_match word) as [[stem ending]|] eqn:Hein.
    { exists [stem; "<<" +:+ ending]. split; [done|].
      by apply (postprocess_pronoun _ EIN_TYPE_STEMS). }
    destruct (DER_TYPE_PRONOUNS_match word) as [[stem ending]|] eqn:Hder.
    { exists [stem; "<<" +:+ ending]. split; [done|].
      by apply (postprocess_pronoun _ DER_TYPE_STEMS). }
    rewrite Hfind. rewrite bool_decide_eq_false_2 by lia.
    rewrite andb_false_r. exists [word]. split; [done|].
    cbn [postprocess_loop]. by rewrite postprocess_word_appends.
  - rewrite Hfind. rewrite bool_decide_eq_false_2 by lia.
    rewrite andb_false_r. exists [word]. split; [done|].
    cbn [postprocess_loop]. by rewrite postprocess_word_appends.
Qed.

Lemma roundtrip_loop (comp contr pron : bool) sentence result :
  Forall (λ word, str_find ">><<" word = (-1)%Z
                  ∧ String.prefix "<<" word = false
                  ∧ ∀ pre, word ≠ pre +:+ newline) sentence →
  (∀ word, head sentence = Some word → contraction result word = None) →
  (∀ i prev word, sentence !! i = Some prev → sentence !! S i = Some word →
                  contraction [prev] word = None) →
  ∃ out,
    (∀ acc, preprocess_loop capitalize
              {| pre_compounding := comp; pre_contracting := contr;
                 pre_pronouns := pron |} acc sentence = Ok (acc ++ out))
    ∧ postprocess_loop lower
        {| compounding := comp; contracting := contr; pronouns := pron |}
        (result, false) out
      = Ok (result ++ sentence, false).
Proof.
  revert result. induction sentence as [|word rest IH];
    intros result Hwords Hhead Hpairs.
  { exists []. split; intros; cbn; by rewrite app_nil_r. }
  apply Forall_cons in Hwords as [(Hfind & Hprefix & Hnl) Hwords].
  destruct (roundtrip_word comp contr pron result word)
    as (out1 & Hpre1 & Hpost1); auto.
  destruct (IH (result ++ [word])) as (out2 & Hpre2 & Hpost2); auto.
  { intros word' Hword'. rewrite contraction_snoc.
    apply (Hpairs 0); [done|]. by destruct rest as [|? ?]; simplify_eq/=. }
  { intros i prev word'. apply (Hpairs (S i)). }
  exists (out1 ++ out2). split.
  - intros acc. cbn [preprocess_loop]. rewrite Hpre1. py_ok.
    by rewrite Hpre2, app_assoc.
  - rewrite postprocess_loop_app, Hpost1. py_ok.
    by rewrite Hpost2, <- app_assoc.
Qed.

(** X7. Preprocessing a sentence and postprocessing the result with the
    same features gives the sentence back with its first word
    capitalized, when no word contains the compound marker [>><<],
    starts with [<<] or ends in a newline, and no word is an article that
    follows a preposition it contracts with. *)
Theorem German_roundtrip (comp contr pron : bool) sentence :
  Forall (λ word, str_find ">><<" word = (-1)%Z
                  ∧ String.prefix "<<" word = false
                  ∧ ∀ pre, word ≠ pre +:+ newline) sentence →
  (∀ i prev word, sentence !! i = Some prev → sentence !! S i = Some word →
                  contraction [prev] word = None) →
  ∃ preprocessed,
    GermanPreprocessor_call capitalize
      {| pre_compounding := comp; pre_contracting := contr;
         pre_pronouns := pron |} sentence = Ok preprocessed
    ∧ GermanPostprocessor_call capitalize lower
        {| compounding := comp; contracting := contr; pronouns := pron |}
        preprocessed
      = Ok (untruecase capitalize sentence).
Proof.
  intros Hwords Hpairs.
  destruct (roundtrip_loop comp contr pron sentence [] Hwords)
    as (out & Hpre & Hpost); [|done|].
  { intros word _. apply contraction_nil. }
  exists out. unfold GermanPreprocessor_call, GermanPostprocessor_call.
  rewrite Hpre. split; [done|]. rewrite Hpost. py_ok. cbn [fst app].
  by destruct sentence.
Qed.

End GermanRoundTrip.

Section GermanRoundTripExamples.
Import LanguageUtils.

Lemma German_roundtrip_witness :
  ∃ preprocessed,
    GermanPreprocessor_call ascii_str_capitalize
      {| pre_compounding := true; pre_contracting := true;
         pre_pronouns := true |} ["im"; "haus"; "meiner"; "eltern"]
    = Ok preprocessed
    ∧ GermanPostprocessor_call ascii_str_capitalize ascii_str_lower
        {| compounding := true; contracting := true; pronouns := true |}
        preprocessed
      = Ok (untruecase ascii_str_capitalize
              ["im"; "haus"; "meiner"; "eltern"]).
Proof.
  apply (German_roundtrip ascii_str_capitalize ascii_str_lower
           true true true ["im"; "haus"; "meiner"; "eltern"]).
  - repeat constructor;
      intros [|? [|? [|? [|? [|? [|? [|? ?]]]]]]] H; vm_compute in H;
      discriminate H.
  - intros [|[|[|[|i]]]] prev word H1 H2; vm_compute in H1, H2;
      try discriminate H2;
      injection H1 as <-; injection H2 as <-; vm_compute; reflexivity.
Defined.

(** An article after its preposition does not come back: the
    postprocessor contracts the two. A compound comes back without its
    marker. *)
Example German_contraction_not_restored :
  GermanPreprocessor_call ascii_str_capitalize
    {| pre_compounding := true; pre_contracting := true;
       pre_pronouns := true |} ["in"; "dem"; "haus>><<tuer"]
  = Ok ["in"; "dem"; "haus"; ">><<"; "Tuer"]
  ∧ GermanPostprocessor_call ascii_str_capitalize ascii_str_lower
      {| compounding := true; contracting := true; pronouns := true |}
      ["in"; "dem"; "haus"; ">><<"; "Tuer"]
    = Ok ["Im"; "haustuer"].
Proof. split; vm_compute; reflexivity. Qed.

End GermanRoundTripExamples.

Section GermanLeadingSuffix.
Import LanguageUtils.
Variables (capitalize lower : string → string).

Opaque CONTRACT.

(** X8. With [pronouns] set, a word that starts with [<<] and has no
    word before it to be joined to is dropped: the output is that of the
    rest of the sentence. *)
Theorem GermanPostprocessor_drops_leading_suffix self word sentence :
  pronouns self = true → String.prefix "<<" word = true →
  GermanPostprocessor_call capitalize lower self (word :: sentence)
  = GermanPostprocessor_call capitalize lower self sentence.
Proof.
  intros Hpron Hprefix. unfold GermanPostprocessor_call.
  cbn [postprocess_loop]. unfold postprocess_word at 1.
  assert (contraction [] word = None) as ->
    by (unfold contraction; by destruct (CONTRACT !! word)).
  rewrite (bool_decide_eq_false_2 (is_Some None)) by (by intros [? ?]).
  by rewrite andb_false_r, Hpron, Hprefix.
Qed.

End GermanLeadingSuffix.

Section GermanLeadingSuffixExamples.
Import LanguageUtils.

Lemma GermanPostprocessor_drops_leading_suffix_witness :
  GermanPostprocessor_call ascii_str_capitalize ascii_str_lower
    {| compounding := true; contracting := true; pronouns := true |}
    ["<<en"; "haus"]
  = GermanPostprocessor_call ascii_str_capitalize ascii_str_lower
      {| compounding := true; contracting := true; pronouns := true |}
      ["haus"].
Proof.
  apply (GermanPostprocessor_drops_leading_suffix
           ascii_str_capitalize ascii_str_lower
           {| compounding := true; contracting := true; pronouns := true |}
           "<<en" ["haus"]); reflexivity.
Defined.

End GermanLeadingSuffixExamples.

(** ** More on the trainer *)

Section BiasMatches.
Import GenericTrainer.

Lemma str_length_app (a b : string) :
  String.length (a +:+ b) = String.length a + String.length b.
Proof.
  induction a as [|c a IH]; [done|].
  change (S (String.length (a +:+ b)) = S (String.length a + String.length b)).
  by rewrite IH.
Qed.

Lemma findall_from_matches skip s m :
  m ∈ findall_from skip s → m = "bias" ∨ m = "Bias".
Proof.
  revert skip. induction s as [|c tl IH]; intros skip; cbn [findall_from].
  { by intros ?%elem_of_nil. }
  destruct skip as [|skip]; [|apply IH].
  destruct (is_B c && String.prefix "ias" tl) eqn:Hhere; [|apply IH].
  apply andb_prop in Hhere as [[-> | ->]%is_B_spec _].
  - intros [-> | ?]%elem_of_cons; [by right | by eapply IH].
  - intros [-> | ?]%elem_of_cons; [by left | by eapply IH].
Qed.

Lemma findall_from_length skip s :
  4 * length (findall_from skip s) ≤ String.length s - skip.
Proof.
  revert skip. induction s as [|c tl IH]; intros skip; cbn [findall_from].
  { cbn. lia. }
  destruct skip as [|skip]; [|apply IH].
  destruct (is_B c && String.prefix "ias" tl) eqn:Hhere.
  - apply andb_prop in Hhere as [_ [post ->]%prefix_app].
    specialize (IH 3). rewrite str_length_app in IH.
    cbn [length String.length]. rewrite str_length_app. cbn in *. lia.
  - specialize (IH 0). cbn in *. lia.
Qed.

(** X9. [BIAS_REGEX.findall] finds something in a name exactly when the
    name contains [bias] or [Bias]; every match is one of these two
    words, and as the matches do not overlap there are at most a quarter
    as many as the name has characters. *)
Theorem BIAS_REGEX_findall_matches (s : string) :
  (BIAS_REGEX_findall s ≠ [] ↔ contains "bias" s ∨ contains "Bias" s)
  ∧ (∀ m, m ∈ BIAS_REGEX_findall s → m = "bias" ∨ m = "Bias")
  ∧ 4 * length (BIAS_REGEX_findall s) ≤ String.length s.
Proof.
  split; [|split].
  - rewrite <- findall_truthy_contains.
    destruct (BIAS_REGEX_findall s); cbn; split; (done || congruence).
  - intros m. apply findall_from_matches.
  - unfold BIAS_REGEX_findall.
    etransitivity; [apply findall_from_length | lia].
Qed.

End BiasMatches.

Section Regularization.
Import GenericTrainer.
Variable trainable_variables : list variable.
Variable get_collection : string → list summary.
Variable collect_encoders : nat → gset nat.

Lemma foldl_Qplus_nonneg (xs : list Q) (a : Q) :
  (0 <= a)%Q → Forall (λ x, 0 <= x)%Q xs → (0 <= foldl Qplus a xs)%Q.
Proof.
  intros Ha Hxs. revert a Ha.
  induction Hxs as [|x xs Hx _ IH]; intros a Ha; [done|].
  cbn. apply IH. replace 0%Q with (0 + 0)%Q by done.
  by apply Qplus_le_compat.
Qed.

Lemma Qsum_nonneg (xs : list Q) :
  Forall (λ x, 0 <= x)%Q xs → (0 <= Qsum xs)%Q.
Proof. by apply foldl_Qplus_nonneg. Qed.

Lemma sum_of_squares_nonneg (xs : list Q) : (0 <= sum_of_squares xs)%Q.
Proof.
  apply Qsum_nonneg, Forall_fmap, Forall_forall. intros x _. cbn.
  change (Qpower x 2) with (x * x)%Q.
  destruct x as [n d]. unfold Qle, Qmult. cbn. nia.
Qed.

Lemma Qabs_nonneg_eq (x : Q) : (0 <= x)%Q → Qabs x = x.
Proof.
  destruct x as [n d]. unfold Qle, Qabs. cbn. intros Hn.
  f_equal. apply Z.abs_eq. lia.
Qed.

(** X10. The value of [l1_value] in a session is the sum, over the
    variables the comprehension keeps, of the sum of the squares of the
    variable's elements: the absolute value is taken of a sum of squares
    and changes nothing. The value of [l2_value] is the sum of the squares
    of these sums. Neither is negative. *)
Theorem regularization_values σ :
  ∃ l1 l2,
    eval σ (as_tensor (l1_value trainable_variables)) = Some [l1]
    ∧ eval σ (as_tensor (l2_value trainable_variables)) = Some [l2]
    ∧ l1 = Qsum ((λ v, sum_of_squares (σ v))
                 <$> regularized_variables trainable_variables)
    ∧ l2 = Qsum ((λ v, sum_of_squares (σ v) * sum_of_squares (σ v))%Q
                 <$> regularized_variables trainable_variables)
    ∧ (0 <= l1)%Q ∧ (0 <= l2)%Q.
Proof.
  eexists _, _. split; [apply l1_value_eval|].
  split; [apply l2_value_eval|].
  assert ((λ v, Qabs (sum_of_squares (σ v)))
            <$> regularized_variables trainable_variables
          = (λ v, sum_of_squares (σ v))
              <$> regularized_variables trainable_variables) as ->.
  { apply list_fmap_ext. intros _ v _.
    apply Qabs_nonneg_eq, sum_of_squares_nonneg. }
  do 2 (split; [done|]). split.
  - apply Qsum_nonneg, Forall_fmap, Forall_forall. intros v _.
    apply sum_of_squares_nonneg.
  - apply Qsum_nonneg, Forall_fmap, Forall_forall. intros v _. cbn.
    apply Qmult_le_0_compat; apply sum_of_squares_nonneg.
Qed.

Lemma foldl_py_add_Ten (t : tensor) (items : list tensor) :
  ∃ t', foldl py_add (Ten t) (Ten <$> items) = Ten t'.
Proof.
  revert t. induction items as [|t0 items IH]; intros t; [by eexists|].
  cbn [fmap list_fmap foldl]. rewrite py_add_Ten. apply IH.
Qed.

Lemma py_sum_Ten (t : tensor) (items : list tensor) (acc : scalar) :
  ∃ t', foldl py_add acc (Ten <$> (t :: items)) = Ten t'.
Proof.
  cbn [fmap list_fmap foldl]. rewrite py_add_Ten. apply foldl_py_add_Ten.
Qed.

Lemma ne_zero_py_sum (f : tensor → tensor) (weight : Q) :
  ne_zero (regularization_cost weight
             (py_sum ((λ v, Ten (f v)) <$> regularizable trainable_variables)))
  = true
  ↔ (0 < weight)%Q ∧ regularized_variables trainable_variables ≠ [].
Proof.
  unfold regularization_cost, regularizable, py_sum.
  destruct (Qlt_le_dec 0 weight) as [Hpos | Hle].
  - destruct (regularized_variables trainable_variables) as [|v vs].
    + cbn. split; [|by intros [_ ?]].
      rewrite negb_true_iff. intros Hne.
      assert (Qeq_bool (weight * 0) 0 = true) as Heq
        by (apply Qeq_bool_iff; ring).
      congruence.
    + split; [by intros _|]. intros _.
      rewrite (list_fmap_compose f Ten).
      destruct (py_sum_Ten
                  (f (ReduceSum (Pow (Var v) 2)))
                  (f <$> ((λ v, ReduceSum (Pow (Var v) 2)) <$> vs))
                  (Num 0)) as [t' Ht'].
      cbn [fmap list_fmap] in *. by rewrite Ht'.
  - cbn. split; [done|]. intros [Hpos _].
    by apply Qle_not_lt in Hle.
Qed.

(** X11. The gradients of a regularization cost are asked for exactly
    when its weight is positive and the comprehension keeps at least one
    variable: in every other case the cost is the number zero, which the
    test [l != 0.] drops. *)
Theorem regularization_cost_differentiated (weight : Q) :
  (ne_zero (regularization_cost weight (l1_value trainable_variables)) = true
   ↔ (0 < weight)%Q ∧ regularized_variables trainable_variables ≠ [])
  ∧ (ne_zero (regularization_cost weight (l2_value trainable_variables))
     = true
     ↔ (0 < weight)%Q ∧ regularized_variables trainable_variables ≠ []).
Proof.
  split.
  - apply (ne_zero_py_sum Abs).
  - apply (ne_zero_py_sum (λ v, Mul v v)).
Qed.

Lemma no_regularization_costs l1_weight l2_weight :
  ((l1_weight <= 0)%Q ∨ regularized_variables trainable_variables = []) →
  ((l2_weight <= 0)%Q ∨ regularized_variables trainable_variables = []) →
  filter (λ l, Is_true (ne_zero l))
    [regularization_cost l1_weight (l1_value trainable_variables);
     regularization_cost l2_weight (l2_value trainable_variables)]
  = [].
Proof.
  intros H1 H2.
  assert (ne_zero (regularization_cost l1_weight
                     (l1_value trainable_variables)) = false) as Hl1.
  { apply not_true_is_false. rewrite (ne_zero_py_sum Abs).
    intros [Hpos Hne]. destruct H1 as [Hle | ?]; [|done].
    by apply Qle_not_lt in Hle. }
  assert (ne_zero (regularization_cost l2_weight
                     (l2_value trainable_variables)) = false) as Hl2.
  { apply not_true_is_false. rewrite (ne_zero_py_sum (λ v, Mul v v)).
    intros [Hpos Hne]. destruct H2 as [Hle | ?]; [|done].
    by apply Qle_not_lt in Hle. }
  rewrite filter_cons, Hl1, decide_False by (cbn; tauto).
  by rewrite filter_cons, Hl2, decide_False by (cbn; tauto).
Qed.

Lemma summed_gradients_no_regularization compute_gradients opt objectives
    l1_weight l2_weight :
  ((l1_weight <= 0)%Q ∨ regularized_variables trainable_variables = []) →
  ((l2_weight <= 0)%Q ∨ regularized_variables trainable_variables = []) →
  summed_gradients trainable_variables compute_gradients opt objectives
    l1_weight l2_weight
  = _sum_gradients Add
      ((λ objective,
          match gradients objective with
          | None => compute_gradients opt (loss objective)
          | Some given => given
          end) <$> objectives).
Proof.
  intros H1 H2. unfold summed_gradients.
  rewrite (no_regularization_costs _ _ H1 H2). cbn [fmap list_fmap].
  by rewrite app_nil_r.
Qed.

(** X12. When neither regularization weight is positive (as with the
    defaults), or no variable is kept for the regularization, the
    gradients the trainer applies are the clipped sums of the gradients
    of the objectives alone: those an objective brings, else those of its
    loss. *)
Theorem gradients_without_regularization compute_gradients objective
    objectives l1_weight l2_weight clip_norm opt :
  ((l1_weight <= 0)%Q ∨ regularized_variables trainable_variables = []) →
  ((l2_weight <= 0)%Q ∨ regularized_variables trainable_variables = []) →
  ∃ trainer,
    GenericTrainer_init trainable_variables get_collection compute_gradients
      collect_encoders (objective :: objectives) l1_weight l2_weight
      clip_norm opt = Ok trainer
    ∧ self_train_op trainer
      = ApplyGradients (self_optimizer trainer)
          (clip_gradients clip_norm
             (_sum_gradients Add
                ((λ objective,
                    match gradients objective with
                    | None => compute_gradients (self_optimizer trainer)
                                (loss objective)
                    | Some given => given
                    end) <$> objective :: objectives))).
Proof.
  intros H1 H2.
  destruct (GenericTrainer_init_train_op trainable_variables get_collection
              compute_gradients collect_encoders objective objectives
              l1_weight l2_weight clip_norm opt)
    as (trainer & Hinit & Hop & _).
  exists trainer. split; [exact Hinit|].
  by rewrite Hop, summed_gradients_no_regularization.
Qed.

(** X13. An objective that brings its gradients is not differentiated:
    when every objective does and no regularization weight is positive,
    the trainer is the same whatever [compute_gradients] returns. *)
Theorem given_gradients_are_used compute_gradients compute_gradients'
    objectives l1_weight l2_weight clip_norm opt :
  Forall (λ objective, is_Some (gradients objective)) objectives →
  (l1_weight <= 0)%Q → (l2_weight <= 0)%Q →
  GenericTrainer_init trainable_variables get_collection compute_gradients
    collect_encoders objectives l1_weight l2_weight clip_norm opt
  = GenericTrainer_init trainable_variables get_collection compute_gradients'
      collect_encoders objectives l1_weight l2_weight clip_norm opt.
Proof.
  intros Hgiven H1 H2. unfold GenericTrainer_init.
  rewrite !summed_gradients_no_regularization by auto.
  assert ((λ objective,
             match gradients objective with
             | None => compute_gradients
                         match opt with
                         | Some given => given
                         | None => AdamOptimizer (1 # 10000)
                         end (loss objective)
             | Some given => given
             end) <$> objectives
          = (λ objective,
               match gradients objective with
               | None => compute_gradients'
                           match opt with
                           | Some given => given
                           | None => AdamOptimizer (1 # 10000)
                           end (loss objective)
               | Some given => given
               end) <$> objectives) as ->; [|done].
  apply list_fmap_ext. intros i objective Hi.
  eapply Forall_lookup_1 in Hgiven as [given Hg]; [|done].
  by rewrite Hg.
Qed.

Lemma elem_of_foldl_union (s : gset nat) (sets : list (gset nat)) (c : nat) :
  c ∈ foldl (∪) s sets ↔ c ∈ s ∨ ∃ s', s' ∈ sets ∧ c ∈ s'.
Proof.
  revert s. induction sets as [|s0 sets IH]; intros s; cbn.
  - split; [by left|]. intros [? | (? & []%elem_of_nil & _)]. done.
  - rewrite IH, elem_of_union. split.
    + intros [[? | ?] | (s' & Hs' & Hc)].
      * by left.
      * right. exists s0. split; [left | done].
      * right. exists s'. split; [by right | done].
    + intros [? | (s' & [-> | Hs']%elem_of_cons & Hc)].
      * left. by left.
      * left. by right.
      * right. by exists s'.
Qed.

(** X14. With at least one objective the construction returns, and the
    coders of the trainer are those [collect_encoders] finds from the
    decoder of some objective. *)
Theorem all_coders_of_the_decoders compute_gradients objective objectives
    l1_weight l2_weight clip_norm opt :
  ∃ trainer,
    GenericTrainer_init trainable_variables get_collection compute_gradients
      collect_encoders (objective :: objectives) l1_weight l2_weight
      clip_norm opt = Ok trainer
    ∧ ∀ coder, coder ∈ self_all_coders trainer
               ↔ ∃ o, o ∈ objective :: objectives
                      ∧ coder ∈ collect_encoders (decoder o).
Proof.
  eexists. unfold GenericTrainer_init. cbn [fmap list_fmap set_union].
  rewrite bind_Ok. split; [done|]. cbn [self_all_coders]. intros coder.
  rewrite elem_of_foldl_union. split.
  - intros [Hc | (s' & (o & -> & Ho)%list_elem_of_fmap & Hc)].
    + exists objective. split; [left | done].
    + exists o. split; [by right | done].
  - intros (o & [-> | Ho]%elem_of_cons & Hc); [by left|].
    right. exists (collect_encoders (decoder o)). split; [|done].
    apply list_elem_of_fmap. by exists o.
Qed.

Lemma clip_gradients_vars clip_norm (grads : list (tensor * variable)) :
  (clip_gradients clip_norm grads).*2 = grads.*2.
Proof.
  destruct clip_norm; [done| |]; cbn;
    by rewrite <- list_fmap_compose.
Qed.

(** X15. [apply_gradients] gets every variable at most once. Unless
    [clip_norm] is [None], every gradient it gets is a [clip_by_norm] of
    an aggregated gradient, also when [clip_norm] is [False] or zero. *)
Theorem train_op_gradients compute_gradients objective objectives
    l1_weight l2_weight clip_norm opt :
  ∃ trainer grads,
    GenericTrainer_init trainable_variables get_collection compute_gradients
      collect_encoders (objective :: objectives) l1_weight l2_weight
      clip_norm opt = Ok trainer
    ∧ self_train_op trainer = ApplyGradients (self_optimizer trainer) grads
    ∧ NoDup grads.*2
    ∧ (clip_norm ≠ PyNone →
       Forall (λ gv, ∃ grad, gv.1 = ClipByNorm grad clip_norm) grads).
Proof.
  destruct (GenericTrainer_init_train_op trainable_variables get_collection
              compute_gradients collect_encoders objective objectives
              l1_weight l2_weight clip_norm opt)
    as (trainer & Hinit & Hop & _).
  eexists trainer, _. split; [exact Hinit|]. split; [exact Hop|]. split.
  - rewrite clip_gradients_vars. unfold summed_gradients.
    rewrite sum_gradients_vars. apply summed_dict_NoDup.
  - intros Hclip. rewrite clip_gradients_not_None by done.
    apply Forall_fmap, Forall_forall. intros gv _. by eexists.
Qed.

End Regularization.

Section RegularizationExamples.
Import GenericTrainer Inputs.

Lemma gradients_without_regularization_witness :
  ∃ trainer,
    GenericTrainer_init [W; b] no_summaries gradients_of_W encoders_of
      [objective] 0 0 PyNone None = Ok trainer
    ∧ self_train_op trainer
      = ApplyGradients (self_optimizer trainer)
          (clip_gradients PyNone
             (_sum_gradients Add
                ((λ objective,
                    match gradients objective with
                    | None => gradients_of_W (self_optimizer trainer)
                                (loss objective)
                    | Some given => given
                    end) <$> [objective]))).
Proof.
  apply (gradients_without_regularization [W; b] no_summaries encoders_of
           gradients_of_W objective [] 0 0 PyNone None); left; done.
Defined.

Lemma given_gradients_are_used_witness :
  GenericTrainer_init [W; b] no_summaries gradients_of_W encoders_of
    [given_objective] 0 0 PyNone None
  = GenericTrainer_init [W; b] no_summaries (λ _ _, []) encoders_of
      [given_objective] 0 0 PyNone None.
Proof.
  apply (given_gradients_are_used [W; b] no_summaries encoders_of
           gradients_of_W (λ _ _, []) [given_objective] 0 0 PyNone None).
  - repeat constructor. by eexists.
  - done.
  - done.
Defined.

End RegularizationExamples.

Section FetchPlan.
Import GenericTrainer.

(** X16. What an executable of a trainer asks a session for: the
    training operation and the losses of the trainer, the three summaries
    when [summaries] is set and only then, for the coders of the trainer
    and with an empty feed dictionary. The argument [train] changes
    nothing. *)
Theorem next_to_execute_of_trainer (trainer : GenericTrainer)
    (train summaries : bool) :
  ∃ fetches,
    next_to_execute (get_executable trainer train summaries)
    = (self_all_coders trainer, fetches, ∅)
    ∧ dom fetches
      =@{gset string}
        {[ "train_op"; "losses" ]}
        ∪ (if summaries
           then {[ "scalar_summaries"; "histogram_summaries";
                   "image_summaries" ]}
           else ∅)
    ∧ fetches !! "train_op" = Some (FetchOperation (self_train_op trainer))
    ∧ fetches !! "losses" = Some (FetchLosses (self_losses trainer))
    ∧ (summaries = true →
       fetches !! "scalar_summaries"
       = Some (FetchSummary (Some (self_scalar_summaries trainer)))
       ∧ fetches !! "histogram_summaries"
         = Some (FetchSummary (Some (self_histogram_summaries trainer)))
       ∧ fetches !! "image_summaries"
         = Some (FetchSummary (Some (self_image_summaries trainer)))).
Proof.
  eexists. split; [reflexivity|].
  destruct summaries; cbn [get_executable scalar_summaries
    histogram_summaries image_summaries losses train_op].
  - split; [rewrite !dom_insert_L, dom_singleton_L; set_solver|].
    repeat split; by simplify_map_eq.
  - split; [rewrite !dom_insert_L, dom_singleton_L; set_solver|].
    repeat split; (by simplify_map_eq) || done.
Qed.

End FetchPlan.

Section SumGradientsMore.
Import GenericTrainer.
Context {V T : Type} `{EqDecision V}.
Variable add : T → T → T.
Implicit Types (entries : list (option T * V)).
Implicit Types (gradients_list : list (list (option T * V))).

(** X17. Only the order of the pairs counts for [_sum_gradients], not the
    lists they come in: the result is that of the one list that holds all
    the pairs in turn. *)
Theorem sum_gradients_concat gradients_list :
  _sum_gradients add gradients_list
  = _sum_gradients add [concat gradients_list].
Proof.
  unfold _sum_gradients, summed_dict_of.
  by rewrite foldl_foldl_concat.
Qed.

Lemma contributions_absent var entries :
  var ∉ omap (λ entry : option T * V, (λ _, entry.2) <$> entry.1) entries →
  omap (contribution var) entries = [].
Proof.
  induction entries as [|[[t|] var'] entries IH]; [done| |]; cbn.
  - destruct (decide (var' = var)) as [-> | Hne].
    + intros []. left.
    + intros Hnot. apply IH. intros Hin. apply Hnot. by right.
  - apply IH.
Qed.

Lemma contributions_distinct var t entries :
  NoDup (omap (λ entry : option T * V, (λ _, entry.2) <$> entry.1)
              entries) →
  (Some t, var) ∈ entries → omap (contribution var) entries = [t].
Proof.
  induction entries as [|[[t'|] var'] entries IH]; cbn.
  - by intros _ ?%elem_of_nil.
  - intros [Hnot Hrest]%NoDup_cons [[= -> ->] | Hin]%elem_of_cons.
    + rewrite decide_True by done. cbn. f_equal.
      by apply contributions_absent.
    + destruct (decide (var' = var)) as [-> | Hne].
      * destruct Hnot. apply list_elem_of_omap.
        by exists (Some t, var).
      * by apply IH.
  - intros Hrest [[=] | Hin]%elem_of_cons. by apply IH.
Qed.

(** X18. When no variable has two gradients, nothing is added: the result
    holds the pairs whose gradient is not [None], each once. *)
Theorem sum_gradients_distinct gradients_list :
  NoDup (omap (λ entry : option T * V, (λ _, entry.2) <$> entry.1)
              (concat gradients_list)) →
  _sum_gradients add gradients_list
  ≡ₚ omap (λ entry : option T * V, (λ t, (t, entry.2)) <$> entry.1)
          (concat gradients_list).
Proof.
  intros Hdistinct. apply NoDup_Permutation.
  - apply sum_gradients_NoDup.
  - apply (NoDup_fmap_1 snd).
    replace (snd <$> omap (λ entry : option T * V,
                             (λ t, (t, entry.2)) <$> entry.1)
                          (concat gradients_list))
      with (omap (λ entry : option T * V, (λ _, entry.2) <$> entry.1)
                 (concat gradients_list)); [done|].
    generalize (concat gradients_list). intros entries.
    induction entries as [|[[t|] var] entries IH]; cbn; [done| |done].
    by rewrite IH.
  - intros [t var]. rewrite sum_gradients_elem_of, list_elem_of_omap.
    unfold contributions. split.
    + intros Hsum.
      destruct (omap (contribution var) (concat gradients_list))
        as [|t0 ts] eqn:Hts; [done|].
      assert (t0 ∈ contributions var gradients_list) as Hin
        by (unfold contributions; rewrite Hts; left).
      apply contributions_elem_of in Hin.
      rewrite (contributions_distinct var t0) in Hts by done.
      injection Hts as <-. injection Hsum as <-.
      by exists (Some t0, var).
    + intros ([[t'|] var'] & Hin & [= -> ->]).
      by rewrite (contributions_distinct var t).
Qed.

End SumGradientsMore.

Section SumGradientsMoreExamples.
Import GenericTrainer.

Lemma sum_gradients_distinct_witness :
  _sum_gradients Qplus [[(None, "A"); (Some 5%Q, "B")]; [(Some 7%Q, "A")]]
  ≡ₚ omap (λ entry : option Q * string, (λ t, (t, entry.2)) <$> entry.1)
          (concat [[(None, "A"); (Some 5%Q, "B")]; [(Some 7%Q, "A")]]).
Proof.
  apply (sum_gradients_distinct Qplus
           [[(None, "A"); (Some 5%Q, "B")]; [(Some 7%Q, "A")]]).
  apply (bool_decide_unpack _). vm_compute. reflexivity.
Defined.

End SumGradientsMoreExamples.

(** ** More on the executable *)

Section CollectResults.
Import GenericTrainer.
Implicit Types (self : TrainExecutable) (losses_sum ls : list Q).
Implicit Types (session_result first : gmap string fetched).
Implicit Types (results rest : list (gmap string fetched)).

Lemma for_each_app {A S : Type} (body : S → A → py_result S) (st : S)
    (items1 items2 : list A) :
  for_each body st (items1 ++ items2)
  = for_each body st items1 ≫= λ st', for_each body st' items2.
Proof.
  revert st. induction items1 as [|x items1 IH]; intros st; [done|].
  cbn [app for_each]. destruct (body st x); [|done]. py_ok. apply IH.
Qed.

(** The summaries are read from the first result. *)
Lemma collect_summaries_first self s first rest :
  scalar_summaries self = Some s →
  context_result self first →
  ∃ scalar histogram image,
    first !! "scalar_summaries" = Some scalar
    ∧ first !! "histogram_summaries" = Some histogram
    ∧ first !! "image_summaries" = Some image
    ∧ collect_summaries self (first :: rest)
      = Ok (Some scalar, Some histogram, Some image).
Proof.
  intros Hs Hkeys. unfold collect_summaries. rewrite Hs.
  assert (∀ key, key = "scalar_summaries" ∨ key = "histogram_summaries"
                 ∨ key = "image_summaries" →
                 is_Some (first !! key)) as Hkey.
  { intros key Hkey. apply Hkeys. unfold next_to_execute. rewrite Hs. cbn.
    destruct Hkey as [-> | [-> | ->]]; by simplify_map_eq. }
  destruct (Hkey "scalar_summaries") as [x1 H1]; [by left|].
  destruct (Hkey "histogram_summaries") as [x2 H2]; [by right; left|].
  destruct (Hkey "image_summaries") as [x3 H3]; [by right; right|].
  exists x1, x2, x3. do 3 (split; [done|]).
  cbn. unfold dict_getitem. rewrite H1, H2, H3. reflexivity.
Qed.

(** X19. When the executable asks for summaries, the summaries of the
    result are those of the first session result; the summaries of the
    other results are not read. Without summaries the three fields are
    [None]. *)
Theorem collect_results_summaries_of_first self first rest :
  context_result self first →
  Forall (λ session_result,
            ∃ ls, losses_of session_result = Some ls
                  ∧ length ls = length (losses self)) (first :: rest) →
  ∃ self' execution_result,
    collect_results self (first :: rest) = Ok self'
    ∧ result self' = Some execution_result
    ∧ match scalar_summaries self with
      | Some _ =>
          is_Some (first !! "scalar_summaries")
          ∧ result_scalar_summaries execution_result
            = first !! "scalar_summaries"
          ∧ result_histogram_summaries execution_result
            = first !! "histogram_summaries"
          ∧ result_image_summaries execution_result
            = first !! "image_summaries"
      | None =>
          result_scalar_summaries execution_result = None
          ∧ result_histogram_summaries execution_result = None
          ∧ result_image_summaries execution_result = None
      end.
Proof.
  intros Hkeys Hlosses.
  destruct (average_losses_ok self (first :: rest)) as (avg & Havg & _);
    [done..|].
  unfold collect_results.
  destruct (scalar_summaries self) as [s|] eqn:Hs.
  - destruct (collect_summaries_first self s first rest Hs Hkeys)
      as (x1 & x2 & x3 & H1 & H2 & H3 & Hsum).
    rewrite Hsum. py_ok. rewrite Havg. py_ok.
    eexists _, _. split; [done|]. split; [done|]. cbn.
    rewrite H1, H2, H3. by repeat split.
  - unfold collect_summaries. rewrite Hs. py_ok. rewrite Havg. py_ok.
    eexists _, _. split; [done|]. split; [done|]. by repeat split.
Qed.

Lemma collect_summaries_KeyError self first rest :
  (∃ summaries, collect_summaries self (first :: rest) = Ok summaries)
  ∨ collect_summaries self (first :: rest) = Raise KeyError.
Proof.
  unfold collect_summaries. destruct (scalar_summaries self); [|by left; eexists].
  cbn. unfold dict_getitem.
  destruct (first !! "scalar_summaries"); [|by right]. py_ok.
  destruct (first !! "histogram_summaries"); [|by right]. py_ok.
  destruct (first !! "image_summaries"); [|by right]. py_ok.
  left. by eexists.
Qed.

Lemma add_session_KeyError self losses_sum first :
  losses self ≠ [] → losses_sum ≠ [] → first !! "losses" = None →
  add_session self losses_sum first = Raise KeyError.
Proof.
  intros Hne Hsum Hnone. unfold add_session.
  destruct (losses self) as [|l ls]; [done|].
  destruct losses_sum as [|s losses_sum]; [done|].
  cbn [length seq for_each]. unfold add_loss.
  cbn [list_getitem lookup list_lookup]. py_ok.
  unfold dict_getitem. by rewrite Hnone.
Qed.

(** X20. A first session result without the key [losses] makes
    [collect_results] raise [KeyError] when the executable has a loss,
    whatever the results that follow hold. *)
Theorem collect_results_without_losses self first rest :
  losses self ≠ [] → first !! "losses" = None →
  collect_results self (first :: rest) = Raise KeyError.
Proof.
  intros Hne Hnone. unfold collect_results.
  destruct (collect_summaries_KeyError self first rest) as [[x ->] | ->];
    [py_ok | done].
  unfold average_losses. cbn [for_each].
  rewrite add_session_KeyError; [done | done | | done].
  by destruct (losses self).
Qed.

Lemma add_session_IndexError self losses_sum first ls :
  losses_of first = Some ls →
  length losses_sum = length (losses self) →
  length ls < length (losses self) →
  add_session self losses_sum first = Raise IndexError.
Proof.
  intros Hls Hsum Hshort. unfold add_session.
  replace (length (losses self))
    with (length ls + S (length (losses self) - S (length ls))) by lia.
  rewrite seq_app, for_each_app.
  destruct (add_losses_from first ls (length ls) 0 losses_sum Hls)
    as (losses_sum' & -> & Hget); [lia..|].
  py_ok. cbn [seq for_each]. unfold add_loss.
  destruct (lookup_lt_is_Some_2 losses_sum (0 + length ls)) as [s Hs];
    [lia|].
  assert (list_getitem losses_sum' (0 + length ls) = Ok s) as ->.
  { unfold list_getitem. rewrite Hget, decide_False by lia. by rewrite Hs. }
  py_ok. apply losses_of_Some in Hls.
  assert (dict_getitem first "losses" = Ok (FFloats ls)) as ->
    by (unfold dict_getitem; by rewrite Hls).
  py_ok. cbn [fetched_getitem].
  assert (list_getitem ls (0 + length ls) = Raise IndexError) as ->
    by (unfold list_getitem; by rewrite lookup_ge_None_2 by lia).
  done.
Qed.

(** X21. A first session result with fewer losses than the executable
    makes [collect_results] raise [IndexError]. *)
Theorem collect_results_short_losses self first rest ls :
  context_result self first →
  first !! "losses" = Some (FFloats ls) →
  length ls < length (losses self) →
  collect_results self (first :: rest) = Raise IndexError.
Proof.
  intros Hkeys Hls%losses_of_Some Hshort. unfold collect_results.
  destruct (collect_summaries_ok self first rest Hkeys) as (x & -> & _).
  py_ok. unfold average_losses. cbn [for_each].
  rewrite (add_session_IndexError _ _ _ ls); [done | done | | done].
  by rewrite length_fmap.
Qed.

End CollectResults.

Section CollectResultsExamples.
Import GenericTrainer Inputs.

Lemma context_result_summaries : context_result with_summaries first_summaries.
Proof.
  intros key [x Hx]. unfold next_to_execute in Hx. cbn in Hx.
  unfold first_summaries.
  destruct (decide (key = "losses")) as [->|]; [by simplify_map_eq|].
  destruct (decide (key = "train_op")) as [->|]; [by simplify_map_eq|].
  destruct (decide (key = "scalar_summaries")) as [->|];
    [by simplify_map_eq|].
  destruct (decide (key = "histogram_summaries")) as [->|];
    [by simplify_map_eq|].
  destruct (decide (key = "image_summaries")) as [->|];
    [by simplify_map_eq|].
  by simplify_map_eq.
Qed.

Lemma context_result_one_loss : context_result two_losses one_loss_context.
Proof.
  intros key [x Hx]. unfold next_to_execute in Hx. cbn in Hx.
  unfold one_loss_context.
  destruct (decide (key = "losses")) as [->|]; [by simplify_map_eq|].
  destruct (decide (key = "train_op")) as [->|]; [by simplify_map_eq|].
  by simplify_map_eq.
Qed.

Lemma collect_results_summaries_of_first_witness :
  ∃ self' execution_result,
    collect_results with_summaries [first_summaries; second_summaries]
    = Ok self'
    ∧ result self' = Some execution_result
    ∧ match scalar_summaries with_summaries with
      | Some _ =>
          is_Some (first_summaries !! "scalar_summaries")
          ∧ result_scalar_summaries execution_result
            = first_summaries !! "scalar_summaries"
          ∧ result_histogram_summaries execution_result
            = first_summaries !! "histogram_summaries"
          ∧ result_image_summaries execution_result
            = first_summaries !! "image_summaries"
      | None =>
          result_scalar_summaries execution_result = None
          ∧ result_histogram_summaries execution_result = None
          ∧ result_image_summaries execution_result = None
      end.
Proof.
  apply (collect_results_summaries_of_first with_summaries first_summaries
           [second_summaries]).
  - apply context_result_summaries.
  - repeat constructor.
    + exists [1%Q]. split; reflexivity.
    + exists [2%Q]. split; reflexivity.
Defined.

Lemma collect_results_without_losses_witness :
  collect_results two_losses [no_losses_context; first_context]
  = Raise KeyError.
Proof.
  apply (collect_results_without_losses two_losses no_losses_context
           [first_context]).
  - discriminate.
  - reflexivity.
Defined.

Lemma collect_results_short_losses_witness :
  collect_results two_losses [one_loss_context; first_context]
  = Raise IndexError.
Proof.
  apply (collect_results_short_losses two_losses one_loss_context
           [first_context] [1%Q]).
  - apply context_result_one_loss.
  - reflexivity.
  - cbn. lia.
Defined.

End CollectResultsExamples.
